(** * Input validation for forecasting: sktime/utils/validation/forecasting.py

    A shallow embedding of the validators of the module and the properties
    its specification states about them.

    Python values are embedded as inductive types, exceptions as a result
    type with one constructor per [raise] site of the module (and per
    exception raised by the interpreter or a library underneath it), numpy
    arrays as objects in a store, since [check_fh] sorts its argument in
    place, and Python floats as binary64 numbers with their IEEE
    comparisons. *)

From Stdlib Require Import ZArith Bool Lia Floats.PrimFloat.
From stdpp Require Import base option list gmap sorting strings.

Set Warnings "-inexact-float,-clear-no-such-hyp".

Local Open Scope Z_scope.

(** ** Python values, exceptions *)

(** The exception classes the module raises or lets through. *)
Inductive exn_class : Set :=
| ValueError | TypeError | NotImplementedError
| IndexError | OverflowError.

(** Plain Python values that reach the scalar validators: [None], integers
    (Python [int] and numpy integer scalars), floats and lists. *)
#[warnings="-register-all"]
Inductive pyval : Type :=
| VNone
| VInt (z : Z)
| VFloat (f : float)
| VList (l : list pyval).

(** Kinds of numpy dtype, and kinds of pandas index. *)
Inductive dtype : Set := signed_int | unsigned_int | floating | datetime64.

Inductive index_kind : Set :=
| RangeIndex | Int64Index | UInt64Index
| Float64Index | DatetimeIndex | PeriodIndex.

#[global] Instance dtype_eq_dec : EqDecision dtype.
Proof. solve_decision. Defined.
#[global] Instance index_kind_eq_dec : EqDecision index_kind.
Proof. solve_decision. Defined.

(** [np.issubdtype(dt, np.integer)] *)
Definition issubdtype_integer (dt : dtype) : bool :=
  match dt with signed_int | unsigned_int => true | _ => false end.

(** A numpy array: zero-dimensional, one-dimensional with its elements, or
    of shape [(d0, d1, ...)].  The elements are kept as integers: the
    validators look at the elements of integer arrays only. *)
Inductive ndarray : Set :=
| Nd0 (dt : dtype)
| Nd1 (dt : dtype) (data : list Z)
| NdN (dt : dtype) (d0 d1 : nat) (ds : list nat).

Definition ndim (a : ndarray) : nat :=
  match a with
  | Nd0 _ => 0
  | Nd1 _ _ => 1
  | NdN _ _ _ ds => 2 + length ds
  end%nat.

Definition arr_dtype (a : ndarray) : dtype :=
  match a with Nd0 dt | Nd1 dt _ | NdN dt _ _ _ => dt end.

Definition shape (a : ndarray) : list nat :=
  match a with
  | Nd0 _ => []
  | Nd1 _ data => [length data]
  | NdN _ d0 d1 ds => d0 :: d1 :: ds
  end.

(** A pandas index: its class and its labels in order. *)
Record Index : Set := mkIndex { kind : index_kind; values : list Z }.

(** One constructor per [raise] statement of the module, then the
    exceptions that come from the interpreter, numpy or pandas. *)
Inductive error : Type :=
(* check_y *)
| YNotSeries
| YEmpty
| YConstant
(* check_time_index *)
| IndexNotSupported (k : index_kind)
| IndexNotSorted (i : Index)
(* check_X *)
| XNotDataFrame
| XMultiRow (rows : nat)
| XEmptySeries (n : nat) (col : string)
| XUnequalIndex (col : string)
(* check_window_length, check_step_length, check_sp *)
| WindowLengthInvalid (v : pyval)
| StepLengthInvalid (v : pyval)
| SpInvalid
(* check_fh *)
| FhNot1d (sh : list nat)
| FhArrayNotInt (dt : dtype)
| FhListNotInt
| FhBadType
| FhEmpty
| FhDuplicates
(* check_consistent_time_index *)
| InconsistentTimeIndices
| TrainNotBeforePred
(* check_alpha *)
| AlphaListNotFloats
| AlphaOutOfRange (a : pyval)
(* check_cutoffs *)
| CutoffsNotArray
| CutoffsNotInt
| CutoffsNot1d
| CutoffsEmpty
(* interpreter and libraries *)
| NotIterable            (* for a in x, x not iterable *)
| Unorderable            (* < between an int and None or a list *)
| LenOfUnsized           (* len() of a 0-d array *)
| IterationOver0d        (* iteration over a 0-d array *)
| IntTooLarge            (* Python int does not fit the C long of np.int *)
| IndexerOutOfBounds     (* .iloc past the end *)
| TupleIndexOutOfRange   (* shape[0] of a 0-d array *)
(* not a Python state: a reference outside the store.  A caller holds
   references to live objects only, the theorems ask for bound references. *)
| Unbound (l : nat).

Definition exn_of (e : error) : option exn_class :=
  match e with
  | YNotSeries => Some TypeError
  | IndexNotSupported _ => Some NotImplementedError
  | NotIterable | Unorderable | LenOfUnsized | IterationOver0d => Some TypeError
  | IntTooLarge => Some OverflowError
  | IndexerOutOfBounds | TupleIndexOutOfRange => Some IndexError
  | Unbound _ => None
  | _ => Some ValueError
  end.

Inductive result (A : Type) : Type :=
| Ok (a : A)
| Raise (e : error).
Arguments Ok {A} a.
Arguments Raise {A} e.

Definition raises {A} (r : result A) : Prop := ∃ e, r = Raise e.

#[global] Instance result_ret : MRet result := fun A a => Ok a.
#[global] Instance result_bind : MBind result := fun A B k r =>
  match r with Ok a => k a | Raise e => Raise e end.

(** Modelled from the spec: [is_int] is imported from [sktime.utils.validation],
    which is not among the sources.  The specification asks for "an integer":
    integer values pass, [None], floats and lists do not. *)
Definition is_int (v : pyval) : bool :=
  match v with VInt _ => true | _ => false end.

Definition int_of (v : pyval) : Z :=
  match v with VInt z => z | _ => 0 end.

(** ** The store of numpy arrays *)

Abbreviation loc := nat.
Abbreviation heap := (gmap loc ndarray).

(** An argument of [check_fh] or [check_cutoffs]: a plain value, or a
    reference to an array that the caller holds too. *)
Inductive arg : Type :=
| Val (v : pyval)
| Ref (l : loc).

(** Computations over the store.  The store is returned in both outcomes:
    what a call did to the caller's objects stays done when it raises. *)
Definition M (A : Type) : Type := heap → result A * heap.

Definition ret {A} (a : A) : M A := fun h => (Ok a, h).
Definition throw {A} (e : error) : M A := fun h => (Raise e, h).
Definition bind {A B} (m : M A) (k : A → M B) : M B :=
  fun h => match m h with
           | (Ok a, h') => k a h'
           | (Raise e, h') => (Raise e, h')
           end.

#[global] Instance M_ret : MRet M := @ret.
#[global] Instance M_bind : MBind M := fun A B k m => bind m k.

Definition alloc (a : ndarray) : M loc :=
  fun h => let l := fresh (dom h) in (Ok l, <[l := a]> h).

Definition get (l : loc) : M ndarray :=
  fun h => match h !! l with
           | Some a => (Ok a, h)
           | None => (Raise (Unbound l), h)
           end.

Definition put (l : loc) (a : ndarray) : M unit :=
  fun h => (Ok (), <[l := a]> h).

Definition lift {A} (r : result A) : M A := fun h => (r, h).

(** ** numpy *)

Definition int64_min : Z := - 2 ^ 63.
Definition int64_max : Z := 2 ^ 63 - 1.
Definition fits_int64 (z : Z) : bool := (int64_min <=? z) && (z <=? int64_max).

(** [np.array(xs, dtype=np.int)] for a list of integers: a new array, or
    [OverflowError] when an element does not fit. *)
Definition np_array_int (xs : list pyval) : M loc :=
  let zs := int_of <$> xs in
  if forallb fits_int64 zs then alloc (Nd1 signed_int zs) else throw IntTooLarge.

(** [ndarray.sort()] and [np.sort]: ascending order. *)
Definition sorted (data : list Z) : list Z := merge_sort Z.le data.

(** [np.unique] of a one-dimensional array: sort, then keep an element when
    it differs from the one before it. *)
Fixpoint drop_repeats (l : list Z) : list Z :=
  match l with
  | x :: t =>
      match t with
      | y :: _ => if x =? y then drop_repeats t else x :: drop_repeats t
      | [] => l
      end
  | [] => []
  end.

Definition np_unique (data : list Z) : list Z := drop_repeats (sorted data).

(** [len(a)] *)
Definition arr_len (a : ndarray) : result nat :=
  match a with
  | Nd0 _ => Raise LenOfUnsized
  | Nd1 _ data => Ok (length data)
  | NdN _ d0 _ _ => Ok d0
  end.

(** The elements of a one-dimensional array (arrays of another dimension
    are turned away by the validators before their elements are read). *)
Definition arr_data (a : ndarray) : list Z :=
  match a with Nd1 _ data => data | _ => [] end.

(** [a.sort()], in place; [np.sort(a)] of a one-dimensional array. *)
Definition arr_sort (a : ndarray) : ndarray :=
  match a with Nd1 dt data => Nd1 dt (sorted data) | _ => a end.

(** ** check_fh *)

Definition check_fh (fh : arg) : M arg :=
  l ← match fh with
      | Val v =>
          (* check single integer *)
          if is_int v then np_array_int [v]
          else
            match v with
            (* check list *)
            | VList xs =>
                if negb (forallb is_int xs) then throw FhListNotInt
                else np_array_int xs
            | _ => throw FhBadType
            end
      (* check array *)
      | Ref l =>
          a ← get l;
          if (1 <? ndim a)%nat then throw (FhNot1d (shape a))
          else if negb (issubdtype_integer (arr_dtype a))
               then throw (FhArrayNotInt (arr_dtype a))
               else mret l
      end;
  a ← get l;
  (* check fh is not empty *)
  n ← lift (arr_len a);
  if (n <? 1)%nat then throw FhEmpty
  (* check fh does not contain duplicates *)
  else if negb (n =? length (np_unique (arr_data a)))%nat then throw FhDuplicates
  else
    (* sort fh *)
    _ ← put l (arr_sort a);
    mret (Ref l).

(** ** check_cutoffs *)

(** [all([is_int(cutoff) for cutoff in cutoffs])]: iterating a
    one-dimensional array yields its scalars, integers exactly for an
    integer dtype; iterating an array of more dimensions yields arrays. *)
Definition all_is_int (a : ndarray) : result bool :=
  match a with
  | Nd0 _ => Raise IterationOver0d
  | Nd1 dt data => Ok (forallb (fun _ => issubdtype_integer dt) data)
  | NdN _ d0 _ _ => Ok (forallb (fun _ => false) (seq 0 d0))
  end.

Definition check_cutoffs (cutoffs : arg) : M arg :=
  match cutoffs with
  | Val _ => throw CutoffsNotArray
  | Ref l =>
      a ← get l;
      ints ← lift (all_is_int a);
      if negb ints then throw CutoffsNotInt
      else if negb (ndim a =? 1)%nat then throw CutoffsNot1d
      else
        n ← lift (arr_len a);
        if negb (0 <? n)%nat then throw CutoffsEmpty
        else
          l' ← alloc (arr_sort a);
          mret (Ref l')
  end.

(** ** check_window_length, check_step_length, check_sp *)

Definition check_window_length (window_length : pyval) : result pyval :=
  match window_length with
  | VNone => Ok window_length
  | _ =>
      if negb (is_int window_length) || (int_of window_length <? 1)
      then Raise (WindowLengthInvalid window_length)
      else Ok window_length
  end.

Definition check_step_length (step_length : pyval) : result pyval :=
  match step_length with
  | VNone => Ok step_length
  | _ =>
      if negb (is_int step_length) || (int_of step_length <? 1)
      then Raise (StepLengthInvalid step_length)
      else Ok step_length
  end.

Definition check_sp (sp : pyval) : result pyval :=
  match sp with
  | VNone => Ok sp
  | _ =>
      if negb (is_int sp) || (int_of sp <? 1) then Raise SpInvalid else Ok sp
  end.

(** ** check_alpha *)

Definition is_float (v : pyval) : bool :=
  match v with VFloat _ => true | _ => false end.

(** [0 < a < 1] on binary64 numbers; false for a NaN. *)
Definition in_open_unit (a : float) : bool := ((0 <? a) && (a <? 1))%float.

(** [0 < a < 1] for a value [a]. *)
Definition between_0_1 (a : pyval) : result bool :=
  match a with
  | VFloat f => Ok (in_open_unit f)
  | VInt z => Ok ((0 <? z) && (z <? 1))
  | VNone | VList _ => Raise Unorderable
  end.

(** [for a in alpha] *)
Definition iterate (v : pyval) : result (list pyval) :=
  match v with VList l => Ok l | _ => Raise NotIterable end.

Fixpoint check_range (l : list pyval) : result unit :=
  match l with
  | [] => Ok ()
  | a :: rest =>
      b ← between_0_1 a;
      if negb b then Raise (AlphaOutOfRange a) else check_range rest
  end.

Definition check_alpha (alpha : pyval) : result pyval :=
  (* check type *)
  alpha ← match alpha with
          | VList l =>
              if negb (forallb is_float l) then Raise AlphaListNotFloats
              else Ok alpha
          | VFloat _ => Ok (VList [alpha])
          | _ => Ok alpha
          end;
  (* check range *)
  elems ← iterate alpha;
  _ ← check_range elems;
  Ok alpha.

(** ** pandas *)

(** A series: the class of its index, and its labelled observations. *)
Record Series : Set := mkSeries { index_kind_of : index_kind; items : list (Z * float) }.

Definition index (y : Series) : Index :=
  mkIndex (index_kind_of y) (fst <$> items y).

Definition series_values (y : Series) : list float := snd <$> items y.

Definition series_len (y : Series) : nat := length (items y).

(** [y.iloc[0]] *)
Definition iloc0 (y : Series) : result float :=
  match series_values y with
  | v :: _ => Ok v
  | [] => Raise IndexerOutOfBounds
  end.

(** [pd.Index(a)] for a one-dimensional array. *)
Definition pd_Index (dt : dtype) (data : list Z) : Index :=
  mkIndex match dt with
          | signed_int => Int64Index
          | unsigned_int => UInt64Index
          | floating => Float64Index
          | datetime64 => DatetimeIndex
          end data.

(** [pd.RangeIndex(n)] *)
Definition pd_RangeIndex (n : nat) : Index :=
  mkIndex RangeIndex (Z.of_nat <$> seq 0 n).

(** [Index.is_monotonic]: each label is at most the next one. *)
Fixpoint is_monotonic (l : list Z) : bool :=
  match l with
  | x :: t =>
      match t with
      | y :: _ => (x <=? y) && is_monotonic t
      | [] => true
      end
  | [] => true
  end.

(** The binary64 number nearest to an integer, ties to even, given as the
    integer it is: what numpy makes of an int64 or uint64 label when it
    converts it to float64. Integers below 2^53 in magnitude are kept, the
    others lose their low bits. *)
Definition to_float64 (z : Z) : Z :=
  let a := Z.abs z in
  if a <? 2 ^ 53 then z
  else
    let e := Z.log2 a - 52 in
    let q := a / 2 ^ e in
    let r := a mod 2 ^ e in
    let up := (2 ^ (e - 1) <? r) || ((r =? 2 ^ (e - 1)) && Z.odd q) in
    Z.sgn z * ((if up then q + 1 else q) * 2 ^ e).

(** The numpy dtype of the labels of an index of each class; the labels of a
    [RangeIndex] are int64 as those of an [Int64Index]. *)
Inductive labels_dtype : Set :=
| int64_labels | uint64_labels | float64_labels | datetime_labels | period_labels.

#[global] Instance labels_dtype_eq_dec : EqDecision labels_dtype.
Proof. solve_decision. Defined.

Definition labels_dtype_of (k : index_kind) : labels_dtype :=
  match k with
  | RangeIndex | Int64Index => int64_labels
  | UInt64Index => uint64_labels
  | Float64Index => float64_labels
  | DatetimeIndex => datetime_labels
  | PeriodIndex => period_labels
  end.

(** How numpy compares labels of two dtypes: as they are when the dtypes
    are the same; as float64 numbers when two numeric dtypes differ, int64
    with uint64 in particular, since no integer dtype holds both; dates and
    periods are not comparable with labels of another dtype. *)
Inductive comparison : Set := Exactly | AsFloat64 | Unrelated.

Definition is_numeric (d : labels_dtype) : bool :=
  match d with
  | int64_labels | uint64_labels | float64_labels => true
  | datetime_labels | period_labels => false
  end.

Definition comparison_of (i j : Index) : comparison :=
  let a := labels_dtype_of (kind i) in
  let b := labels_dtype_of (kind j) in
  if decide (a = b) then Exactly
  else if is_numeric a && is_numeric b then AsFloat64
  else Unrelated.

(** The comparison of the labels of two indexes, one by one: exact for two
    indexes of one dtype, after conversion to float64 for a signed against
    an unsigned one, so that different labels from 2^53 on can compare
    equal. Labels of unrelated dtypes are never equal (the validators
    compare these against a first index that is not empty). *)
Definition labels_equal (i j : Index) : bool :=
  match comparison_of i j with
  | Exactly => bool_decide (values i = values j)
  | AsFloat64 => bool_decide (to_float64 <$> values i = to_float64 <$> values j)
  | Unrelated => false
  end.

(** [Index.equals], which compares the labels with [np.array_equal]. *)
Definition index_equals (i j : Index) : bool := labels_equal i j.

(** [np.array_equal] on two indexes. *)
Definition array_equal (i j : Index) : bool := labels_equal i j.

(** [Index.max()], [Index.min()]: NaN, here [None], on an empty index. *)
Definition index_max (i : Index) : option Z :=
  match values i with
  | x :: t => Some (foldr Z.max x t)
  | [] => None
  end.

Definition index_min (i : Index) : option Z :=
  match values i with
  | x :: t => Some (foldr Z.min x t)
  | [] => None
  end.

(** [a >= b] for a maximum [a] and a minimum [b] of two indexes: false when
    one side is NaN; between a signed and an unsigned integer the two are
    compared as float64 numbers. *)
Definition nan_ge (c : comparison) (a b : option Z) : bool :=
  match a, b with
  | Some x, Some y =>
      match c with
      | Exactly => y <=? x
      | AsFloat64 => to_float64 y <=? to_float64 x
      | Unrelated => false
      end
  | _, _ => false
  end.

(** ** check_time_index *)

(** The argument: an index, or a one-dimensional array. *)
Inductive time_index_arg : Set :=
| TIndex (i : Index)
| TArray (dt : dtype) (data : list Z).

Definition supported_index_types : list index_kind :=
  [RangeIndex; Int64Index; UInt64Index].

Definition wrap (time_index : time_index_arg) : Index :=
  match time_index with
  | TArray dt data => pd_Index dt data
  | TIndex i => i
  end.

Definition check_time_index (time_index : time_index_arg) : result Index :=
  let time_index := wrap time_index in
  (* period or datetime index are not support yet *)
  if negb (bool_decide (kind time_index ∈ supported_index_types))
  then Raise (IndexNotSupported (kind time_index))
  else if negb (is_monotonic (values time_index))
       then Raise (IndexNotSorted time_index)
       else Ok time_index.

(** ** check_y *)

Inductive y_arg : Type :=
| YSeries (y : Series)
| YArray (a : ndarray)
| YValue (v : pyval).

(** [np.all(y == v)] *)
Definition all_equal_to (y : Series) (v : float) : bool :=
  forallb (fun x => (x =? v)%float) (series_values y).

Definition check_y (y : y_arg) (allow_empty allow_constant : bool) : result Series :=
  match y with
  | YSeries y =>
      (* check that series is not empty *)
      _ ← (if negb allow_empty then
             if (series_len y <? 1)%nat then Raise YEmpty else Ok ()
           else Ok ());
      _ ← (if negb allow_constant then
             first ← iloc0 y;
             if all_equal_to y first then Raise YConstant else Ok ()
           else Ok ());
      (* check time index *)
      _ ← check_time_index (TIndex (index y));
      Ok y
  | _ => Raise YNotSeries
  end.

(** ** check_consistent_time_index *)

Fixpoint check_rest (first_index : Index) (ys : list Series) : result unit :=
  match ys with
  | [] => Ok ()
  | y :: ys =>
      _ ← check_time_index (TIndex (index y));
      if negb (index_equals first_index (index y))
      then Raise InconsistentTimeIndices
      else check_rest first_index ys
  end.

Definition check_consistent_time_index
    (ys : list Series) (y_train : option Series) : result unit :=
  match ys with
  | [] => Raise TupleIndexOutOfRange
  | y0 :: rest =>
      let first_index := index y0 in
      _ ← check_time_index (TIndex first_index);
      _ ← check_rest first_index rest;
      match y_train with
      | None => Ok ()
      | Some y_train =>
          _ ← check_time_index (TIndex (index y_train));
          if nan_ge (comparison_of (index y_train) first_index)
                    (index_max (index y_train)) (index_min first_index)
          then Raise TrainNotBeforePred
          else Ok ()
      end
  end.

(** ** check_X *)

(** A cell of a nested table: a series, or a raw array. *)
Inductive cell : Set :=
| CSeries (s : Series)
| CArray (a : ndarray).

Record DataFrame : Set := mkDataFrame { columns : list string; rows : list (list cell) }.

Inductive X_arg : Type :=
| XDataFrame (X : DataFrame)
| XValue (v : pyval).

(** [X.iloc[r, c]] *)
Definition iloc (X : DataFrame) (r c : nat) : result cell :=
  match rows X !! r ≫= (.!! c) with
  | Some x => Ok x
  | None => Raise IndexerOutOfBounds
  end.

(** [hasattr(x, 'index')], with the attribute *)
Definition cell_index (x : cell) : option Index :=
  match x with CSeries s => Some (index s) | CArray _ => None end.

(** [x.shape[0]] *)
Definition shape0 (x : cell) : result nat :=
  match x with
  | CSeries s => Ok (series_len s)
  | CArray a =>
      match shape a with
      | d :: _ => Ok d
      | [] => Raise TupleIndexOutOfRange
      end
  end.

Fixpoint compare_columns (X : DataFrame) (first_index : Index)
    (c : nat) (cols : list string) : result unit :=
  match cols with
  | [] => Ok ()
  | col :: cols =>
      x ← iloc X 0 c;
      index ← match cell_index x with
              | Some i => Ok i
              | None => x00 ← iloc X 0 0; n ← shape0 x00; Ok (pd_RangeIndex n)
              end;
      if negb (array_equal first_index index) then Raise (XUnequalIndex col)
      else compare_columns X first_index (S c) cols
  end.

Definition check_X (X : X_arg) : result DataFrame :=
  match X with
  | XValue _ => Raise XNotDataFrame
  | XDataFrame X =>
      if (1 <? length (rows X))%nat then Raise (XMultiRow (length (rows X)))
      else
        (* Get index from first row, can be either pd.Series or np.array. *)
        x00 ← iloc X 0 0;
        first_index ← match cell_index x00 with
                      | Some i => Ok i
                      | None => n ← shape0 x00; Ok (pd_RangeIndex n)
                      end;
        if (length (values first_index) <? 1)%nat
        then Raise (XEmptySeries (length (values first_index))
                                 (default EmptyString (head (columns X))))
        else
          (* Compare with remaining columns *)
          _ ← compare_columns X first_index 0 (columns X);
          Ok X
  end.

(** The effective index of a cell as the specification describes it: the
    cell's own index if it has one, else a dense range of the cell's own
    element count. *)
Definition effective_index (x : cell) : result Index :=
  match cell_index x with
  | Some i => Ok i
  | None => n ← shape0 x; Ok (pd_RangeIndex n)
  end.

(** ** check_y_X *)

(** [check_consistent_time_index] reads nothing but the [.index] of each of
    its arguments; [check_y_X] calls it with a series and a data frame. This
    is the function on the indexes it reads. *)
Fixpoint check_rest_indexes (first_index : Index) (indexes : list Index) : result unit :=
  match indexes with
  | [] => Ok ()
  | i :: indexes =>
      _ ← check_time_index (TIndex i);
      if negb (index_equals first_index i)
      then Raise InconsistentTimeIndices
      else check_rest_indexes first_index indexes
  end.

Definition check_consistent_indexes
    (indexes : list Index) (train_index : option Index) : result unit :=
  match indexes with
  | [] => Raise TupleIndexOutOfRange
  | first_index :: rest =>
      _ ← check_time_index (TIndex first_index);
      _ ← check_rest_indexes first_index rest;
      match train_index with
      | None => Ok ()
      | Some train_index =>
          _ ← check_time_index (TIndex train_index);
          if nan_ge (comparison_of train_index first_index)
                    (index_max train_index) (index_min first_index)
          then Raise TrainNotBeforePred
          else Ok ()
      end
  end.

(** A data frame with its row index, [X.index]. *)
Record Frame : Set := mkFrame { frame : DataFrame; row_index : Index }.

Inductive frame_arg : Type :=
| FFrame (X : Frame)
| FValue (v : pyval).

Definition frame_data (X : frame_arg) : X_arg :=
  match X with
  | FFrame X => XDataFrame (frame X)
  | FValue v => XValue v
  end.

Definition check_y_X (y : y_arg) (X : frame_arg) : result (Series * Frame) :=
  y ← check_y y false true;
  _ ← check_X (frame_data X);
  match X with
  | FFrame X =>
      _ ← check_consistent_indexes [index y; row_index X] None;
      Ok (y, X)
  | FValue _ => Raise XNotDataFrame
  end.

(** * Vocabulary of the properties *)

(** The array at [l] in the store, as the caller reads it. *)
Definition contents (h : heap) (l : loc) : option (list Z) :=
  match h !! l with Some (Nd1 _ data) => Some data | _ => None end.

(** The integers that an argument of one of the accepted kinds holds: a
    single integer, a list of integers, a one-dimensional integer array. *)
Definition fh_values (fh : arg) (h : heap) : option (list Z) :=
  match fh with
  | Val (VInt z) => Some [z]
  | Val (VList xs) => if forallb is_int xs then Some (int_of <$> xs) else None
  | Val _ => None
  | Ref l =>
      match h !! l with
      | Some (Nd1 dt data) => if issubdtype_integer dt then Some data else None
      | _ => None
      end
  end.

(** What the validation after the type dispatch does to a one-dimensional
    array at [l]. *)
Definition validated (l : loc) (dt : dtype) (data : list Z) (h : heap) : result arg * heap :=
  if decide (data = []) then (Raise FhEmpty, h)
  else if decide (NoDup data) then (Ok (Ref l), <[l := Nd1 dt (sorted data)]> h)
  else (Raise FhDuplicates, h).

(** A float lies strictly between 0 and 1. *)
Definition strictly_between_0_1 (a : float) : Prop :=
  (0 <? a)%float = true ∧ (a <? 1)%float = true.

(** The index classes that [check_time_index] supports. *)
Definition supported (k : index_kind) : Prop :=
  k = RangeIndex ∨ k = Int64Index ∨ k = UInt64Index.

(** The index of a series passes [check_time_index]. *)
Definition valid_index (y : Series) : Prop :=
  check_time_index (TIndex (index y)) = Ok (index y).

(** The maximum and the minimum of a sequence of labels. *)
Definition is_max (l : list Z) (M : Z) : Prop := M ∈ l ∧ ∀ z, z ∈ l → z ≤ M.
Definition is_min (l : list Z) (m : Z) : Prop := m ∈ l ∧ ∀ z, z ∈ l → m ≤ z.

(** A series with the given labels (and zero observations at them). *)
Definition series_of (k : index_kind) (labels : list Z) : Series :=
  mkSeries k ((fun z => (z, 0%float)) <$> labels).

(** A raw cell: a one-dimensional array of [n] observations. *)
Definition raw_cell (n : nat) : cell := CArray (Nd1 floating (replicate n 0)).

(** A series cell with the given labels. *)
Definition series_cell (labels : list Z) : cell :=
  CSeries (series_of Int64Index labels).

(** The outcome of [check_fh] on the array [a] at [l]. *)
Definition fh_array_outcome (l : loc) (a : ndarray) (h : heap) : result arg * heap :=
  match a with
  | NdN dt d0 d1 ds => (Raise (FhNot1d (d0 :: d1 :: ds)), h)
  | Nd0 dt =>
      (Raise (if issubdtype_integer dt then LenOfUnsized else FhArrayNotInt dt), h)
  | Nd1 dt data =>
      if issubdtype_integer dt then validated l dt data h
      else (Raise (FhArrayNotInt dt), h)
  end.

(** The outcome of [check_cutoffs] on the array [a]. *)
Definition cutoffs_array_outcome (a : ndarray) (h : heap) : result arg * heap :=
  match a with
  | Nd0 _ => (Raise IterationOver0d, h)
  | NdN _ d0 _ _ =>
      (Raise (if decide (d0 = 0%nat) then CutoffsNot1d else CutoffsNotInt), h)
  | Nd1 dt data =>
      if decide (data = []) then (Raise CutoffsEmpty, h)
      else if issubdtype_integer dt
           then (Ok (Ref (fresh (dom h))), <[fresh (dom h) := Nd1 dt (sorted data)]> h)
           else (Raise CutoffsNotInt, h)
  end.

(** An integer that float64 holds as it is. *)
Definition small (z : Z) : Prop := Z.abs z < 2 ^ 53.

(** The labels of two indexes are equal as the code compares them. *)
Definition same_labels (i j : Index) : Prop :=
  match comparison_of i j with
  | Exactly => values i = values j
  | AsFloat64 => to_float64 <$> values i = to_float64 <$> values j
  | Unrelated => False
  end.

(** The comparison of the labels of two indexes is the exact one: they have
    one dtype, or two numeric dtypes and no label reaches 2^53. *)
Definition exact_labels (i j : Index) : Prop :=
  labels_dtype_of (kind i) = labels_dtype_of (kind j) ∨
  (is_numeric (labels_dtype_of (kind i)) = true ∧
   is_numeric (labels_dtype_of (kind j)) = true ∧
   Forall small (values i) ∧ Forall small (values j)).

(** [M >= m] as the code compares a maximum with a minimum. *)
Definition compared_ge (c : comparison) (M m : Z) : Prop :=
  match c with
  | Exactly => m ≤ M
  | AsFloat64 => to_float64 m ≤ to_float64 M
  | Unrelated => False
  end.

(** The indexes of the series of a list are compared exactly with each
    other. *)
Definition exactly_compared (ys : list Series) : Prop :=
  ∀ y y', y ∈ ys → y' ∈ ys → exact_labels (index y) (index y').

(** An integer that the integer validators accept. *)
Definition positive_int_or_none (v : pyval) : Prop :=
  v = VNone ∨ ∃ z, v = VInt z ∧ 1 ≤ z.

(** Unfolding the operations of the store monad. *)
Ltac unfold_M :=
  unfold np_array_int in *;
  unfold mbind, mret, M_bind, M_ret, bind, ret, throw, lift, get, put, alloc in *.

(** * Properties *)

(** ** Sorting and duplicates *)

Section sorting.
Implicit Types l data : list Z.

Lemma sorted_Permutation data : sorted data ≡ₚ data.
Proof. apply merge_sort_Permutation. Qed.

Lemma sorted_Sorted data : Sorted Z.le (sorted data).
Proof. apply (Sorted_merge_sort Z.le). Qed.

Lemma sorted_length data : length (sorted data) = length data.
Proof. by rewrite sorted_Permutation. Qed.

Lemma sorted_NoDup data : NoDup (sorted data) ↔ NoDup data.
Proof. by rewrite sorted_Permutation. Qed.

(** Sorting a sorted sequence leaves it as it is. *)
Lemma sorted_fixpoint data : Sorted Z.le data → sorted data = data.
Proof.
  intros Hs. apply (Sorted_unique Z.le); auto using sorted_Sorted, sorted_Permutation.
Qed.

Lemma drop_repeats_length_le l : (length (drop_repeats l) ≤ length l)%nat.
Proof.
  induction l as [|x [|y t] IH]; simpl in *; try lia.
  destruct (x =? y); simpl; lia.
Qed.

(** No element is dropped exactly when no two neighbours are equal. *)
Lemma drop_repeats_keeps_all l :
  Sorted Z.le l →
  length (drop_repeats l) = length l ↔ Sorted Z.lt l.
Proof.
  induction l as [|x [|y t] IH]; intros Hs.
  - split; [constructor | done].
  - split; [repeat constructor | done].
  - apply Sorted_inv in Hs as [Hs Hhd]. apply HdRel_inv in Hhd.
    specialize (IH Hs).
    change (drop_repeats (x :: y :: t))
      with (if x =? y then drop_repeats (y :: t) else x :: drop_repeats (y :: t)).
    destruct (Z.eqb_spec x y) as [->|Hne].
    + split.
      * intros Hlen. pose proof (drop_repeats_length_le (y :: t)).
        simpl in *. lia.
      * intros Hlt. apply Sorted_inv in Hlt as [_ Hxy].
        apply HdRel_inv in Hxy. lia.
    + split.
      * intros Hlen. constructor.
        -- apply IH. simpl in *. lia.
        -- constructor. lia.
      * intros Hlt. apply Sorted_inv in Hlt as [Hlt _].
        apply IH in Hlt. simpl in *. lia.
Qed.

Lemma Sorted_lt_NoDup l : Sorted Z.lt l → NoDup l.
Proof.
  intros Hs. apply Sorted_StronglySorted in Hs; [|intros ???; lia].
  induction Hs as [|x l _ IH Hall]; constructor; [|done].
  intros Hin. rewrite Forall_forall in Hall. specialize (Hall _ Hin). lia.
Qed.

Lemma Sorted_le_NoDup_lt l : Sorted Z.le l → NoDup l → Sorted Z.lt l.
Proof.
  induction 1 as [|x l Hs IH Hhd]; intros Hnd; [constructor|].
  apply NoDup_cons in Hnd as [Hx Hnd]. constructor; [auto|].
  destruct Hhd as [|y l Hxy]; constructor.
  assert (x ≠ y) by (intros ->; apply Hx; left). lia.
Qed.

(** The test of [check_fh] for duplicates: [len(fh) != len(np.unique(fh))]
    is false exactly for a sequence with no repeated value. *)
Lemma unique_length data :
  (length data =? length (np_unique data))%nat = true ↔ NoDup data.
Proof.
  rewrite Nat.eqb_eq. unfold np_unique.
  rewrite <- (sorted_length data) at 1.
  split.
  - intros Hlen. apply sorted_NoDup, Sorted_lt_NoDup.
    apply drop_repeats_keeps_all; [apply sorted_Sorted | done].
  - intros Hnd. symmetry. apply drop_repeats_keeps_all; [apply sorted_Sorted|].
    apply Sorted_le_NoDup_lt; [apply sorted_Sorted | by apply sorted_NoDup].
Qed.
End sorting.

(** ** check_fh: the canonical horizon *)

Lemma length_lt_1 {A} (l : list A) : (length l <? 1)%nat = bool_decide (l = []).
Proof. by destruct l. Qed.

Lemma check_fh_array h l dt data :
  h !! l = Some (Nd1 dt data) →
  issubdtype_integer dt = true →
  check_fh (Ref l) h = validated l dt data h.
Proof.
  intros Hl Hdt. unfold check_fh, validated. unfold_M. simpl.
  rewrite Hl. simpl. rewrite Hdt. simpl. rewrite Hl. simpl.
  rewrite length_lt_1. case_bool_decide as Hnil; [by rewrite decide_True|].
  rewrite (decide_False _ _ Hnil).
  destruct (decide (NoDup data)) as [Hnd|Hnd].
  - apply unique_length in Hnd. by rewrite Hnd.
  - rewrite <- unique_length in Hnd. apply not_true_is_false in Hnd.
    by rewrite Hnd.
Qed.

Lemma check_fh_list h xs :
  forallb is_int xs = true →
  check_fh (Val (VList xs)) h =
    let zs := int_of <$> xs in
    if forallb fits_int64 zs
    then let l := fresh (dom h) in
         validated l signed_int zs (<[l := Nd1 signed_int zs]> h)
    else (Raise IntTooLarge, h).
Proof.
  intros Hint. unfold check_fh, validated. unfold_M. simpl.
  rewrite Hint. simpl.
  destruct (forallb fits_int64 (int_of <$> xs)); [|done].
  rewrite lookup_insert_eq. simpl.
  rewrite length_lt_1. case_bool_decide as Hnil; [by rewrite decide_True|].
  rewrite (decide_False _ _ Hnil).
  destruct (decide (NoDup (int_of <$> xs))) as [Hnd|Hnd].
  - apply unique_length in Hnd. by rewrite Hnd.
  - rewrite <- unique_length in Hnd. apply not_true_is_false in Hnd.
    by rewrite Hnd.
Qed.

Lemma check_fh_int h z :
  check_fh (Val (VInt z)) h =
    if fits_int64 z
    then let l := fresh (dom h) in (Ok (Ref l), <[l := Nd1 signed_int [z]]> h)
    else (Raise IntTooLarge, h).
Proof.
  unfold check_fh. unfold_M. simpl. rewrite andb_true_r.
  destruct (fits_int64 z); [|done].
  rewrite lookup_insert_eq. simpl. by rewrite insert_insert_eq.
Qed.

Lemma validated_Ok l dt data h v h' :
  validated l dt data h = (Ok v, h') →
  v = Ref l ∧ h' !! l = Some (Nd1 dt (sorted data)) ∧ NoDup data ∧ data ≠ [].
Proof.
  unfold validated. repeat case_decide; try done.
  intros [= <- <-]. by rewrite lookup_insert_eq.
Qed.

Lemma validated_Raise l dt data h :
  data = [] ∨ ¬ NoDup data →
  ∃ e, (validated l dt data h).1 = Raise e ∧
       (data = [] → e = FhEmpty) ∧ (data ≠ [] → e = FhDuplicates).
Proof.
  unfold validated. intros Hbad.
  destruct (decide (data = [])) as [Hnil|Hnil]; simpl.
  { exists FhEmpty. by split_and!. }
  destruct (decide (NoDup data)) as [Hnd|Hnd]; simpl.
  { by destruct Hbad. }
  exists FhDuplicates. by split_and!.
Qed.

Lemma check_fh_accepts fh h v h' :
  check_fh fh h = (Ok v, h') →
  ∃ l dt input,
    fh_values fh h = Some input ∧ issubdtype_integer dt = true ∧
    validated l dt input (if fh is Ref _ then h else <[l := Nd1 dt input]> h) = (Ok v, h').
Proof.
  destruct fh as [[| z | f | xs] | l]; try done.
  - rewrite check_fh_int. destruct (fits_int64 z); [|done]. intros [= <- <-].
    exists (fresh (dom h)), signed_int, [z]. split; [done|]. split; [done|].
    unfold validated. rewrite decide_False by done.
    rewrite decide_True by (apply NoDup_singleton).
    by rewrite insert_insert_eq.
  - destruct (forallb is_int xs) eqn:Hint.
    + rewrite check_fh_list by done. simpl. rewrite Hint.
      destruct (forallb fits_int64 _); [|done]. intros Hok.
      by exists (fresh (dom h)), signed_int, (int_of <$> xs).
    + unfold check_fh. unfold_M. simpl. by rewrite Hint.
  - simpl. destruct (h !! l) as [[dt | dt data | dt d0 d1 ds]|] eqn:Hl.
    + unfold check_fh. unfold_M. simpl. rewrite Hl. simpl.
      destruct (issubdtype_integer dt); simpl; [|done]. by rewrite Hl.
    + destruct (issubdtype_integer dt) eqn:Hdt.
      * rewrite (check_fh_array _ _ _ _ Hl Hdt). intros Hok.
        by exists l, dt, data.
      * unfold check_fh. unfold_M. simpl. rewrite Hl. simpl. by rewrite Hdt.
    + unfold check_fh. unfold_M. simpl. by rewrite Hl.
    + unfold check_fh. unfold_M. simpl. by rewrite Hl.
Qed.

(** C1. Whatever [check_fh] accepts is a single integer, a list of integers
    or a one-dimensional integer array; the horizon it returns is sorted
    ascending, has no duplicates and is a rearrangement of the values that
    were passed, so it holds exactly the same values. An argument with a
    repeated value is rejected, and so is one with no value at all. *)
Theorem check_fh_canonical (fh : arg) (h : heap) :
  (∀ v h', check_fh fh h = (Ok v, h') →
     ∃ l input out,
       v = Ref l ∧ fh_values fh h = Some input ∧ contents h' l = Some out ∧
       Sorted Z.le out ∧ NoDup out ∧ out ≡ₚ input ∧ (∀ z, z ∈ out ↔ z ∈ input))
  ∧ (∀ input, fh_values fh h = Some input → ¬ NoDup input →
       ∃ e, (check_fh fh h).1 = Raise e ∧ (e = FhDuplicates ∨ e = IntTooLarge))
  ∧ (fh_values fh h = Some [] → (check_fh fh h).1 = Raise FhEmpty).
Proof.
  split; [|split].
  - intros v h' Hok.
    apply check_fh_accepts in Hok as (l & dt & input & Hin & _ & Hok).
    apply validated_Ok in Hok as (-> & Hout & Hnd & _).
    exists l, input, (sorted input). unfold contents. rewrite Hout.
    repeat split; try done.
    + apply sorted_Sorted.
    + by apply sorted_NoDup.
    + apply sorted_Permutation.
    + by rewrite sorted_Permutation.
    + by rewrite sorted_Permutation.
  - intros input Hin Hdup.
    destruct fh as [[| z | f | xs] | l]; simpl in Hin; try done.
    + injection Hin as <-. destruct Hdup. apply NoDup_singleton.
    + destruct (forallb is_int xs) eqn:Hint; [|done]. injection Hin as <-.
      rewrite check_fh_list by done. simpl.
      destruct (forallb fits_int64 _); [|by eauto].
      destruct (validated_Raise (fresh (dom h)) signed_int (int_of <$> xs)
                  (<[fresh (dom h) := Nd1 signed_int (int_of <$> xs)]> h))
        as (e & He & _ & Hne); [by right|].
      exists e. split; [done|]. left. apply Hne.
      intros Hnil. apply Hdup. rewrite Hnil. constructor.
    + destruct (h !! l) as [[| dt data |]|] eqn:Hl; try done.
      destruct (issubdtype_integer dt) eqn:Hdt; [|done]. injection Hin as <-.
      rewrite (check_fh_array _ _ _ _ Hl Hdt).
      destruct (validated_Raise l dt data h) as (e & He & _ & Hne); [by right|].
      exists e. split; [done|]. left. apply Hne.
      intros Hnil. apply Hdup. rewrite Hnil. constructor.
  - intros Hin.
    destruct fh as [[| z | f | xs] | l]; simpl in Hin; try done.
    + destruct (forallb is_int xs) eqn:Hint; [|done]. injection Hin as Hnil.
      rewrite check_fh_list by done. simpl. by rewrite Hnil.
    + destruct (h !! l) as [[| dt data |]|] eqn:Hl; try done.
      destruct (issubdtype_integer dt) eqn:Hdt; [|done]. injection Hin as ->.
      by rewrite (check_fh_array _ _ _ _ Hl Hdt).
Qed.

Lemma check_fh_canonical_witness :
  let fh := Val (VList [VInt 3; VInt 1; VInt 2]) in
  let h' : heap := {[ 0%nat := Nd1 signed_int [1; 2; 3] ]} in
  check_fh fh ∅ = (Ok (Ref 0%nat), h') ∧
  ∃ l input out,
    Ref 0%nat = Ref l ∧ fh_values fh ∅ = Some input ∧ contents h' l = Some out ∧
    Sorted Z.le out ∧ NoDup out ∧ out ≡ₚ input ∧ (∀ z, z ∈ out ↔ z ∈ input).
Proof.
  split; [vm_compute; reflexivity|].
  apply (proj1 (check_fh_canonical (Val (VList [VInt 3; VInt 1; VInt 2])) ∅)).
  vm_compute. reflexivity.
Defined.

Lemma check_fh_fixpoint (h : heap) (l : loc) (dt : dtype) (data : list Z) :
  h !! l = Some (Nd1 dt data) →
  issubdtype_integer dt = true →
  Sorted Z.le data → NoDup data → data ≠ [] →
  check_fh (Ref l) h = (Ok (Ref l), h).
Proof.
  intros Hl Hdt Hs Hnd Hne.
  rewrite (check_fh_array _ _ _ _ Hl Hdt). unfold validated.
  rewrite decide_False, decide_True by done.
  by rewrite sorted_fixpoint, insert_id.
Qed.

(** C7. A canonical horizon, that is a one-dimensional integer array that is
    sorted, without duplicates and not empty, comes back from [check_fh] as
    it went in: the same array with the same elements. *)
Theorem check_fh_idempotent (h : heap) (l : loc) (dt : dtype) (data : list Z) :
  h !! l = Some (Nd1 dt data) →
  issubdtype_integer dt = true →
  Sorted Z.le data → NoDup data → data ≠ [] →
  check_fh (Ref l) h = (Ok (Ref l), h) ∧ contents h l = Some data.
Proof.
  intros Hl Hdt Hs Hnd Hne. split.
  - by apply (check_fh_fixpoint h l dt data).
  - unfold contents. by rewrite Hl.
Qed.

Lemma check_fh_idempotent_witness :
  let h : heap := {[ 5%nat := Nd1 signed_int [-1; 0; 4] ]} in
  check_fh (Ref 5%nat) h = (Ok (Ref 5%nat), h) ∧ contents h 5%nat = Some [-1; 0; 4].
Proof.
  apply (check_fh_idempotent _ 5%nat signed_int [-1; 0; 4]).
  - reflexivity.
  - reflexivity.
  - repeat constructor; lia.
  - apply Sorted_lt_NoDup. repeat constructor; lia.
  - discriminate.
Defined.

(** X26. Normalising twice is normalising once: whatever the argument was,
    the horizon that [check_fh] returned is accepted again, comes back as the
    same array, and the store is not changed by the second call. *)
Lemma check_fh_twice (fh : arg) (h : heap) v h' :
  check_fh fh h = (Ok v, h') → check_fh v h' = (Ok v, h').
Proof.
  intros Hok. apply check_fh_accepts in Hok as (l & dt & input & _ & Hdt & Hok).
  apply validated_Ok in Hok as (-> & Hl & Hnd & Hne).
  eapply check_fh_fixpoint; eauto using sorted_Sorted.
  - by apply sorted_NoDup.
  - intros Hnil. apply Hne, Permutation_nil_r. by rewrite <- Hnil, sorted_Permutation.
Qed.

(** ** check_fh and the caller's array *)

(** C8. Not every validator leaves its argument as it was: [check_fh]
    sorts an array argument in place. The caller who passed the array
    [3, 1, 2] reads [1, 2, 3] from that same array after the call. *)
Theorem check_fh_sorts_in_place :
  let h : heap := {[ 0%nat := Nd1 signed_int [3; 1; 2] ]} in
  let after := (check_fh (Ref 0%nat) h).2 in
  (check_fh (Ref 0%nat) h).1 = Ok (Ref 0%nat) ∧
  contents h 0%nat = Some [3; 1; 2] ∧
  contents after 0%nat = Some [1; 2; 3] ∧
  contents after 0%nat ≠ contents h 0%nat.
Proof. vm_compute. by split_and!. Qed.

(** The other paths do leave the caller's objects alone: a horizon passed as
    an integer or a list is copied into a new array, and [check_cutoffs]
    sorts a copy. *)
Lemma insert_fresh_lookup (h : heap) (a : ndarray) (l : loc) :
  is_Some (h !! l) → <[fresh (dom h) := a]> h !! l = h !! l.
Proof.
  intros Hl. apply lookup_insert_ne. intros <-.
  apply elem_of_dom in Hl. by apply is_fresh in Hl.
Qed.

Lemma check_fh_value_pure (v : pyval) (h : heap) (l : loc) :
  is_Some (h !! l) → (check_fh (Val v) h).2 !! l = h !! l.
Proof.
  intros Hl. destruct v as [| z | f | xs]; try done.
  - rewrite check_fh_int. destruct (fits_int64 z); [|done].
    by apply insert_fresh_lookup.
  - destruct (forallb is_int xs) eqn:Hint.
    + rewrite check_fh_list by done. simpl.
      destruct (forallb fits_int64 _); [|done].
      unfold validated. repeat case_decide; simpl;
        rewrite ?insert_insert_eq; by apply insert_fresh_lookup.
    + unfold check_fh. unfold_M. simpl. by rewrite Hint.
Qed.

Lemma check_cutoffs_pure (cutoffs : arg) (h : heap) (l : loc) :
  is_Some (h !! l) → (check_cutoffs cutoffs h).2 !! l = h !! l.
Proof.
  intros Hl. destruct cutoffs as [v | l0]; [done|].
  unfold check_cutoffs. unfold_M. simpl.
  destruct (h !! l0) as [a|]; [|done]. simpl.
  destruct (all_is_int a) as [[|]|]; simpl; try done.
  destruct (ndim a =? 1)%nat; simpl; [|done].
  destruct (arr_len a) as [n|]; simpl; [|done].
  destruct (0 <? n)%nat; simpl; [|done].
  by apply insert_fresh_lookup.
Qed.

(** ** The scalar validators and [None] *)

(** C2, as amended. [check_window_length], [check_step_length] and
    [check_sp] return [None] unchanged. [check_alpha] and [check_cutoffs]
    do not take [None]: [check_cutoffs] asks for an array first and raises
    a [ValueError], [check_alpha] iterates over what is neither a list nor
    a float and raises a [TypeError]. *)
Theorem none_passes_integer_validators :
  check_window_length VNone = Ok VNone ∧
  check_step_length VNone = Ok VNone ∧
  check_sp VNone = Ok VNone ∧
  check_alpha VNone = Raise NotIterable ∧
  exn_of NotIterable = Some TypeError ∧
  (∀ h : heap, check_cutoffs (Val VNone) h = (Raise CutoffsNotArray, h)) ∧
  exn_of CutoffsNotArray = Some ValueError.
Proof. by split_and!. Qed.

(** C2 as stated fails: not all five validators return [None] on [None]. *)
Lemma none_rejected_by_alpha_and_cutoffs :
  ¬ (check_window_length VNone = Ok VNone ∧
     check_step_length VNone = Ok VNone ∧
     check_sp VNone = Ok VNone ∧
     check_alpha VNone = Ok VNone ∧
     (check_cutoffs (Val VNone) ∅).1 = Ok (Val VNone)).
Proof. intros (_ & _ & _ & Halpha & _). discriminate Halpha. Qed.

(** The integer validators on integers: at least 1 passes, less is refused. *)
Lemma check_window_length_int (z : Z) :
  check_window_length (VInt z) =
    if decide (1 ≤ z) then Ok (VInt z) else Raise (WindowLengthInvalid (VInt z)).
Proof.
  unfold check_window_length. simpl.
  destruct (Z.ltb_spec z 1); case_decide; try done; lia.
Qed.

(** ** check_alpha *)

Lemma in_open_unit_spec (a : float) :
  in_open_unit a = true ↔ strictly_between_0_1 a.
Proof. unfold in_open_unit, strictly_between_0_1. apply andb_true_iff. Qed.

Lemma forallb_is_float (fs : list float) : forallb is_float (VFloat <$> fs) = true.
Proof. induction fs; simpl; auto. Qed.

Lemma check_range_floats (fs : list float) :
  (check_range (VFloat <$> fs) = Ok () ∧ Forall strictly_between_0_1 fs) ∨
  (∃ a, check_range (VFloat <$> fs) = Raise (AlphaOutOfRange (VFloat a)) ∧
        a ∈ fs ∧ ¬ strictly_between_0_1 a).
Proof.
  induction fs as [|f fs IH]; [left; by split|].
  rewrite fmap_cons. cbn [check_range between_0_1 mbind result_bind].
  destruct (in_open_unit f) eqn:Hf; cbn [negb].
  - apply in_open_unit_spec in Hf. destruct IH as [[-> Hall]|(a & -> & Ha & Hout)].
    + left. split; [done|]. by constructor.
    + right. exists a. split_and!; [done | by right | done].
  - right. exists f. split_and!; [done | by left |].
    rewrite <- in_open_unit_spec. by rewrite Hf.
Qed.

(** C9. A float alpha is returned as a one-element list; a list of floats
    is returned as it is; both when every value lies strictly between 0 and
    1, and otherwise, and only then, the out-of-range error is raised, for a
    value of the input that is out of range. 0.05 gives [0.05], [0.5, 1.5]
    is refused for 1.5, and 0 and 1 are refused, as floats and as integers. *)
Theorem check_alpha_open_interval :
  (∀ a, strictly_between_0_1 a ↔ check_alpha (VFloat a) = Ok (VList [VFloat a])) ∧
  (∀ a, ¬ strictly_between_0_1 a ↔
        check_alpha (VFloat a) = Raise (AlphaOutOfRange (VFloat a))) ∧
  (∀ fs, Forall strictly_between_0_1 fs ↔
         check_alpha (VList (VFloat <$> fs)) = Ok (VList (VFloat <$> fs))) ∧
  (∀ fs, Exists (fun a => ¬ strictly_between_0_1 a) fs ↔
         ∃ a, check_alpha (VList (VFloat <$> fs)) = Raise (AlphaOutOfRange a)) ∧
  check_alpha (VFloat 0.05) = Ok (VList [VFloat 0.05]) ∧
  check_alpha (VList [VFloat 0.5; VFloat 1.5]) = Raise (AlphaOutOfRange (VFloat 1.5)) ∧
  check_alpha (VFloat 0) = Raise (AlphaOutOfRange (VFloat 0)) ∧
  check_alpha (VFloat 1) = Raise (AlphaOutOfRange (VFloat 1)) ∧
  raises (check_alpha (VInt 0)) ∧ raises (check_alpha (VInt 1)).
Proof.
  assert (Hlist : ∀ fs, check_alpha (VList (VFloat <$> fs)) =
            (_ ← check_range (VFloat <$> fs); Ok (VList (VFloat <$> fs)))).
  { intros fs. unfold check_alpha. by rewrite forallb_is_float. }
  assert (Hone : ∀ a, check_alpha (VFloat a) =
            if in_open_unit a then Ok (VList [VFloat a])
            else Raise (AlphaOutOfRange (VFloat a))).
  { intros a. unfold check_alpha. simpl. unfold mbind, result_bind. simpl.
    by destruct (in_open_unit a). }
  split_and!; try (vm_compute; reflexivity); try (by eexists).
  - intros a. rewrite Hone, <- in_open_unit_spec.
    destruct (in_open_unit a); split; done.
  - intros a. rewrite Hone, <- in_open_unit_spec.
    destruct (in_open_unit a); split; done.
  - intros fs. rewrite Hlist.
    destruct (check_range_floats fs) as [[-> Hall]|(a & -> & Ha & Hout)]; [done|].
    split; [|done]. intros Hall. rewrite Forall_forall in Hall.
    by destruct Hout; apply Hall.
  - intros fs. rewrite Hlist.
    destruct (check_range_floats fs) as [[-> Hall]|(a & -> & Ha & Hout)].
    + split; [|by intros [? ?]]. intros Hex. apply Exists_exists in Hex as (a & Ha & Hout).
      rewrite Forall_forall in Hall. by destruct Hout; apply Hall.
    + split; [by eexists|]. intros _. apply Exists_exists. eauto.
Qed.

(** ** check_time_index *)

Lemma is_monotonic_Sorted (l : list Z) : is_monotonic l = true ↔ Sorted Z.le l.
Proof.
  induction l as [|x [|y t] IH].
  - split; [constructor | done].
  - split; [repeat constructor | done].
  - change (is_monotonic (x :: y :: t)) with ((x <=? y) && is_monotonic (y :: t)).
    rewrite andb_true_iff, IH, Z.leb_le. split.
    + intros [Hxy Hs]. constructor; [done | by constructor].
    + intros Hs. apply Sorted_inv in Hs as [Hs Hhd]. by apply HdRel_inv in Hhd.
Qed.

Lemma supported_spec (k : index_kind) :
  bool_decide (k ∈ supported_index_types) = true ↔ supported k.
Proof.
  rewrite bool_decide_eq_true. unfold supported_index_types, supported.
  rewrite !elem_of_cons, elem_of_nil. tauto.
Qed.

(** The three outcomes of [check_time_index]. *)
Lemma check_time_index_cases (ti : time_index_arg) :
  let i := wrap ti in
  (¬ supported (kind i) ∧ check_time_index ti = Raise (IndexNotSupported (kind i))) ∨
  (supported (kind i) ∧ ¬ Sorted Z.le (values i) ∧
     check_time_index ti = Raise (IndexNotSorted i)) ∨
  (supported (kind i) ∧ Sorted Z.le (values i) ∧ check_time_index ti = Ok i).
Proof.
  intros i. unfold check_time_index. fold i.
  destruct (bool_decide (kind i ∈ supported_index_types)) eqn:Hk; simpl.
  - apply supported_spec in Hk.
    destruct (is_monotonic (values i)) eqn:Hm; simpl.
    + apply is_monotonic_Sorted in Hm. right; right. done.
    + right; left. split_and!; try done.
      rewrite <- is_monotonic_Sorted. by rewrite Hm.
  - left. split; [|done]. rewrite <- supported_spec. by rewrite Hk.
Qed.

(** C6. [check_time_index] raises the unsupported-kind error exactly when
    the index, wrapped if it came as an array, is not a range, signed or
    unsigned integer index; it raises the unsorted error exactly when the
    index is of a supported kind and its labels are not non-decreasing; what
    it returns otherwise is the wrapped index itself. Equal neighbours are
    accepted; [0, 1, 2, 3] and the range of length 4 are accepted, and
    [3, 1, 2] is refused as unsorted. *)
Theorem check_time_index_outcomes (ti : time_index_arg) :
  ((∃ k, check_time_index ti = Raise (IndexNotSupported k)) ↔
     ¬ supported (kind (wrap ti))) ∧
  ((∃ i, check_time_index ti = Raise (IndexNotSorted i)) ↔
     supported (kind (wrap ti)) ∧ ¬ Sorted Z.le (values (wrap ti))) ∧
  (∀ i, check_time_index ti = Ok i → i = wrap ti) ∧
  (check_time_index ti = Ok (wrap ti) ↔
     supported (kind (wrap ti)) ∧ Sorted Z.le (values (wrap ti))) ∧
  check_time_index (TArray signed_int [0; 1; 2; 3]) = Ok (mkIndex Int64Index [0; 1; 2; 3]) ∧
  check_time_index (TIndex (pd_RangeIndex 4)) = Ok (mkIndex RangeIndex [0; 1; 2; 3]) ∧
  check_time_index (TIndex (mkIndex Int64Index [1; 1; 2])) = Ok (mkIndex Int64Index [1; 1; 2]) ∧
  check_time_index (TIndex (mkIndex Int64Index [3; 1; 2])) =
    Raise (IndexNotSorted (mkIndex Int64Index [3; 1; 2])) ∧
  check_time_index (TIndex (mkIndex PeriodIndex [0; 1; 2])) =
    Raise (IndexNotSupported PeriodIndex).
Proof.
  split_and!; try reflexivity;
    destruct (check_time_index_cases ti) as [[Hk ->]|[(Hk & Hs & ->)|(Hk & Hs & ->)]];
    naive_solver.
Qed.

(** ** check_y *)

(** C10. With [allow_empty=True] and [allow_constant=False] an empty series
    is not returned: the test for a constant series reads [y.iloc[0]], which
    raises an [IndexError] when there is no first element. *)
Theorem check_y_empty_allowed_raises (k : index_kind) :
  check_y (YSeries (mkSeries k [])) true false = Raise IndexerOutOfBounds ∧
  exn_of IndexerOutOfBounds = Some IndexError ∧
  (∀ y, check_y (YSeries (mkSeries k [])) true false ≠ Ok y).
Proof. by split_and!. Qed.

(** With the constant check off, the same empty series is returned. *)
Lemma check_y_empty_allowed_constant (k : index_kind) :
  supported k →
  check_y (YSeries (mkSeries k [])) true true = Ok (mkSeries k []).
Proof. by intros [-> | [-> | ->]]. Qed.

(** ** Comparing labels *)

Example to_float64_ties_to_even :
  to_float64 (2 ^ 53 + 1) = 2 ^ 53 ∧ to_float64 (2 ^ 53 + 2) = 2 ^ 53 + 2 ∧
  to_float64 (2 ^ 53 + 3) = 2 ^ 53 + 4 ∧ to_float64 (- 2 ^ 53 - 1) = - 2 ^ 53 ∧
  to_float64 (2 ^ 64 - 1) = 2 ^ 64 ∧ to_float64 (2 ^ 63 - 1) = 2 ^ 63.
Proof. vm_compute. by split_and!. Qed.

Lemma to_float64_small (z : Z) : small z → to_float64 z = z.
Proof.
  unfold small, to_float64. intros Hz. cbn zeta.
  by rewrite (proj2 (Z.ltb_lt _ _) Hz).
Qed.

(** What does not fit float64 exactly stays at 2^53 or beyond. *)
Lemma to_float64_big (z : Z) : ¬ small z → ¬ small (to_float64 z).
Proof.
  unfold small, to_float64. intros Hz. cbn zeta.
  rewrite (proj2 (Z.ltb_ge _ _)) by lia.
  set (a := Z.abs z) in *. set (e := Z.log2 a - 52).
  assert (53 ≤ Z.log2 a) as Hlog.
  { change 53 with (Z.log2 (2 ^ 53)). apply Z.log2_le_mono. lia. }
  assert (0 < 2 ^ e) as Hpow by (apply Z.pow_pos_nonneg; lia).
  assert (2 ^ 52 ≤ a / 2 ^ e) as Hq.
  { apply Z.div_le_lower_bound; [done|]. rewrite <- Z.pow_add_r by lia.
    replace (e + 52) with (Z.log2 a) by lia. apply Z.log2_spec. lia. }
  assert (2 ≤ 2 ^ e) as He.
  { change 2 with (2 ^ 1) at 1. apply Z.pow_le_mono_r; lia. }
  set (q := a / 2 ^ e) in *.
  assert (2 ^ 53 ≤ q * 2 ^ e) as Hqe.
  { change (2 ^ 53) with (2 ^ 52 * 2). apply Z.mul_le_mono_nonneg; lia. }
  assert (Z.abs (Z.sgn z) = 1) as Hsgn by lia.
  rewrite Z.abs_mul, Hsgn, Z.mul_1_l.
  destruct (_ || _); nia.
Qed.

Lemma to_float64_eq_small (x y : Z) :
  small y → to_float64 x = to_float64 y → x = y.
Proof.
  intros Hy Heq. rewrite (to_float64_small y Hy) in Heq.
  destruct (decide (small x)) as [Hx|Hx].
  - by rewrite (to_float64_small x Hx) in Heq.
  - apply to_float64_big in Hx. by rewrite Heq in Hx.
Qed.

Lemma to_float64_fmap_eq_small (l r : list Z) :
  Forall small r → to_float64 <$> l = to_float64 <$> r ↔ l = r.
Proof.
  intros Hr. split; [|by intros ->]. revert l.
  induction Hr as [|y r Hy _ IH]; intros [|x l]; try done.
  rewrite !fmap_cons. intros [= Hxy Hlr]. f_equal; [|by apply IH].
  by apply to_float64_eq_small.
Qed.

Lemma comparison_of_same (i j : Index) :
  labels_dtype_of (kind i) = labels_dtype_of (kind j) → comparison_of i j = Exactly.
Proof. unfold comparison_of. intros ->. by rewrite decide_True. Qed.

Lemma labels_equal_spec (i j : Index) : labels_equal i j = true ↔ same_labels i j.
Proof.
  unfold labels_equal, same_labels.
  destruct (comparison_of i j); by rewrite ?bool_decide_eq_true.
Qed.

Lemma same_labels_exact (i j : Index) :
  exact_labels i j → same_labels i j ↔ values i = values j.
Proof.
  unfold same_labels. intros [Hsame|(Hi & Hj & _ & Hsmall)].
  - by rewrite comparison_of_same.
  - unfold comparison_of. rewrite Hi, Hj. cbn [andb].
    case_decide; [done|]. by apply to_float64_fmap_eq_small.
Qed.

Lemma labels_equal_exact (i j : Index) :
  exact_labels i j → labels_equal i j = bool_decide (values i = values j).
Proof.
  intros Hex. pose proof (labels_equal_spec i j) as Hspec.
  rewrite (same_labels_exact _ _ Hex) in Hspec.
  destruct (labels_equal i j); symmetry.
  - apply bool_decide_eq_true. by apply Hspec.
  - apply bool_decide_eq_false. intros Heq. by apply Hspec in Heq.
Qed.

Lemma labels_equal_refl (i : Index) : labels_equal i i = true.
Proof. rewrite labels_equal_exact by (by left). by apply bool_decide_eq_true. Qed.

Lemma same_labels_length (i j : Index) :
  same_labels i j → length (values i) = length (values j).
Proof.
  unfold same_labels. destruct (comparison_of i j); [by intros -> | | done].
  intros Heq. apply (f_equal length) in Heq. by rewrite !length_fmap in Heq.
Qed.

Lemma compared_ge_exact (i j : Index) (M m : Z) :
  exact_labels i j → M ∈ values i → m ∈ values j →
  compared_ge (comparison_of i j) M m ↔ m ≤ M.
Proof.
  intros [Hsame|(Hi & Hj & Hsi & Hsj)] HM Hm.
  - by rewrite comparison_of_same.
  - unfold comparison_of. rewrite Hi, Hj. cbn [andb]. case_decide; [done|].
    cbn [compared_ge]. rewrite Forall_forall in Hsi, Hsj.
    by rewrite !to_float64_small by auto.
Qed.

(** ** check_consistent_time_index *)

Lemma check_time_index_valid (y : Series) i :
  check_time_index (TIndex (index y)) = Ok i → valid_index y.
Proof.
  intros Hok. unfold valid_index.
  destruct (check_time_index_cases (TIndex (index y)))
    as [[_ Hr]|[(_ & _ & Hr)|(_ & _ & Hr)]]; by rewrite Hr in *.
Qed.

Lemma check_rest_valid (first_index : Index) (ys : list Series) :
  Forall valid_index ys →
  (Forall (fun y => same_labels first_index (index y)) ys ∧
     check_rest first_index ys = Ok ()) ∨
  (¬ Forall (fun y => same_labels first_index (index y)) ys ∧
     check_rest first_index ys = Raise InconsistentTimeIndices).
Proof.
  induction 1 as [|y ys Hy _ IH]; [by left|].
  cbn [check_rest]. rewrite Hy. cbn [mbind result_bind].
  unfold index_equals.
  destruct (labels_equal first_index (index y)) eqn:Heq; cbn [negb].
  - apply labels_equal_spec in Heq. destruct IH as [[Hall ->]|[Hall ->]].
    + left. split; [by constructor | done].
    + right. split; [|done]. by intros [_ ?]%Forall_cons.
  - right. split; [|done]. intros [Hs _]%Forall_cons.
    apply labels_equal_spec in Hs. congruence.
Qed.

Lemma Forall_same_labels_exact (y0 : Series) (ys : list Series) :
  Forall (fun y => exact_labels (index y0) (index y)) ys →
  Forall (fun y => same_labels (index y0) (index y)) ys ↔
  Forall (fun y => values (index y) = values (index y0)) ys.
Proof.
  induction 1 as [|y ys Hy _ IH]; [done|].
  rewrite !Forall_cons, IH, (same_labels_exact _ _ Hy). naive_solver.
Qed.

(** X27. For series whose indexes all pass [check_time_index],
    the call without a training series succeeds exactly when each series
    after the first has the labels of the first, in the same order, as
    [Index.equals] compares them, and raises the inconsistent-indices error
    otherwise. The comparison is the exact one between two indexes of one
    label dtype (a [RangeIndex] and an [Int64Index] are both int64) and
    whenever no label reaches 2^53; a signed index and a [UInt64Index] are
    compared as float64 numbers. Indexes [0, 1, 2] and [0, 1, 2] pass;
    [0, 1, 2] and [0, 1, 3] do not. *)
Theorem check_consistent_time_index_equal (y0 : Series) (ys : list Series) :
  Forall valid_index (y0 :: ys) →
  (check_consistent_time_index (y0 :: ys) None = Ok () ↔
     Forall (fun y => same_labels (index y0) (index y)) ys) ∧
  (check_consistent_time_index (y0 :: ys) None = Raise InconsistentTimeIndices ↔
     ¬ Forall (fun y => same_labels (index y0) (index y)) ys) ∧
  (Forall (fun y => exact_labels (index y0) (index y)) ys →
     (check_consistent_time_index (y0 :: ys) None = Ok () ↔
        Forall (fun y => values (index y) = values (index y0)) ys) ∧
     (check_consistent_time_index (y0 :: ys) None = Raise InconsistentTimeIndices ↔
        ¬ Forall (fun y => values (index y) = values (index y0)) ys)).
Proof.
  intros [Hy0 Hys]%Forall_cons. unfold check_consistent_time_index.
  rewrite Hy0. cbn [mbind result_bind].
  destruct (check_rest_valid (index y0) ys Hys) as [[Hall ->]|[Hall ->]];
    cbn [mbind result_bind]; split_and!; try (split; done).
  - intros Hex. rewrite <- (Forall_same_labels_exact _ _ Hex). split; split; done.
  - intros Hex. rewrite <- (Forall_same_labels_exact _ _ Hex). split; split; done.
Qed.

Lemma check_consistent_time_index_equal_witness :
  let A := series_of Int64Index [0; 1; 2] in
  let B := series_of Int64Index [0; 1; 2] in
  let B' := series_of Int64Index [0; 1; 3] in
  check_consistent_time_index [A; B] None = Ok () ∧
  check_consistent_time_index [A; B'] None = Raise InconsistentTimeIndices.
Proof.
  split.
  - refine (proj2 (proj1 (proj2 (proj2 (check_consistent_time_index_equal
             (series_of Int64Index [0; 1; 2]) [series_of Int64Index [0; 1; 2]] _)) _)) _).
    + repeat constructor.
    + repeat constructor.
    + repeat constructor.
  - refine (proj2 (proj2 (proj2 (proj2 (check_consistent_time_index_equal
             (series_of Int64Index [0; 1; 2]) [series_of Int64Index [0; 1; 3]] _)) _)) _).
    + repeat constructor.
    + repeat constructor.
    + intros Hall. apply Forall_cons in Hall as [Heq _]. discriminate Heq.
Defined.

(** C5. The call does not raise for every series whose index differs from
    the first: an [Int64Index] with the label 2^53 and a [UInt64Index] with
    the label 2^53 + 1 both pass the index check and are found consistent,
    although their labels differ, since [Index.equals] compares the two as
    float64 numbers. *)
Lemma check_consistent_time_index_float64_equal :
  let A := series_of Int64Index [2 ^ 53] in
  let B := series_of UInt64Index [2 ^ 53 + 1] in
  Forall valid_index [A; B] ∧
  check_consistent_time_index [A; B] None = Ok () ∧
  ¬ Forall (fun y => values (index y) = values (index A)) [B].
Proof.
  split_and!.
  - repeat constructor.
  - vm_compute. reflexivity.
  - intros Hall. apply Forall_cons in Hall as [Heq _]. vm_compute in Heq. discriminate Heq.
Qed.

Lemma foldr_max_spec (x : Z) (t : list Z) : is_max (x :: t) (foldr Z.max x t).
Proof.
  induction t as [|y t [Hin Hub]]; simpl.
  - split; [left|]. intros z ->%list_elem_of_singleton. lia.
  - split.
    + destruct (Z.max_spec y (foldr Z.max x t)) as [[_ ->]|[_ ->]].
      * apply elem_of_cons in Hin as [->|Hin]; [left | right; by right].
      * right; left.
    + intros z [->|[->|Hz]%elem_of_cons]%elem_of_cons.
      * specialize (Hub x). pose proof (Hub ltac:(left)). lia.
      * lia.
      * specialize (Hub z). pose proof (Hub ltac:(by right)). lia.
Qed.

Lemma foldr_min_spec (x : Z) (t : list Z) : is_min (x :: t) (foldr Z.min x t).
Proof.
  induction t as [|y t [Hin Hlb]]; simpl.
  - split; [left|]. intros z ->%list_elem_of_singleton. lia.
  - split.
    + destruct (Z.min_spec y (foldr Z.min x t)) as [[_ ->]|[_ ->]].
      * right; left.
      * apply elem_of_cons in Hin as [->|Hin]; [left | right; by right].
    + intros z [->|[->|Hz]%elem_of_cons]%elem_of_cons.
      * specialize (Hlb x). pose proof (Hlb ltac:(left)). lia.
      * lia.
      * specialize (Hlb z). pose proof (Hlb ltac:(by right)). lia.
Qed.

Lemma is_max_unique (l : list Z) (M M' : Z) : is_max l M → is_max l M' → M = M'.
Proof. intros [Hin Hub] [Hin' Hub']. apply Hub in Hin'. apply Hub' in Hin. lia. Qed.

Lemma is_min_unique (l : list Z) (m m' : Z) : is_min l m → is_min l m' → m = m'.
Proof. intros [Hin Hlb] [Hin' Hlb']. apply Hlb in Hin'. apply Hlb' in Hin. lia. Qed.

Lemma index_max_spec (i : Index) (M : Z) :
  index_max i = Some M ↔ is_max (values i) M.
Proof.
  unfold index_max. destruct (values i) as [|x t].
  - split; [done|]. intros [Hin _]. by apply elem_of_nil in Hin.
  - pose proof (foldr_max_spec x t) as Hspec. split.
    + by intros [= <-].
    + intros HM. f_equal. eapply is_max_unique; eauto.
Qed.

Lemma index_min_spec (i : Index) (m : Z) :
  index_min i = Some m ↔ is_min (values i) m.
Proof.
  unfold index_min. destruct (values i) as [|x t].
  - split; [done|]. intros [Hin _]. by apply elem_of_nil in Hin.
  - pose proof (foldr_min_spec x t) as Hspec. split.
    + by intros [= <-].
    + intros Hm. f_equal. eapply is_min_unique; eauto.
Qed.

Lemma nan_ge_spec (i j : Index) :
  nan_ge (comparison_of i j) (index_max i) (index_min j) = true ↔
  ∃ M m, is_max (values i) M ∧ is_min (values j) m ∧
         compared_ge (comparison_of i j) M m.
Proof.
  split.
  - destruct (index_max i) as [M|] eqn:HM; [|done].
    destruct (index_min j) as [m|] eqn:Hm; [|done]. cbn [nan_ge].
    intros Hge. exists M, m.
    rewrite <- index_max_spec, <- index_min_spec. split_and!; try done.
    destruct (comparison_of i j); cbn [compared_ge]; [by apply Z.leb_le.. | done].
  - intros (M & m & HM & Hm & Hge).
    apply index_max_spec in HM as ->. apply index_min_spec in Hm as ->.
    cbn [nan_ge]. destruct (comparison_of i j); cbn [compared_ge] in Hge;
      [by apply Z.leb_le.. | done].
Qed.

Lemma nan_ge_exact (i j : Index) :
  exact_labels i j →
  nan_ge (comparison_of i j) (index_max i) (index_min j) = true ↔
  ∃ M m, is_max (values i) M ∧ is_min (values j) m ∧ m ≤ M.
Proof.
  intros Hex. rewrite nan_ge_spec.
  split; intros (M & m & HM & Hm & Hge); exists M, m; split_and!; try done.
  - by apply (compared_ge_exact i j M m Hex (proj1 HM) (proj1 Hm)).
  - by apply (compared_ge_exact i j M m Hex (proj1 HM) (proj1 Hm)).
Qed.

Lemma check_train (y0 : Series) (ys : list Series) (y_train : Series) :
  check_consistent_time_index (y0 :: ys) None = Ok () →
  valid_index y_train →
  check_consistent_time_index (y0 :: ys) (Some y_train) =
    if nan_ge (comparison_of (index y_train) (index y0))
              (index_max (index y_train)) (index_min (index y0))
    then Raise TrainNotBeforePred else Ok ().
Proof.
  unfold check_consistent_time_index. intros Hys Htrain.
  destruct (check_time_index (TIndex (index y0))) as [i0|]; [|done].
  cbn [mbind result_bind] in *.
  destruct (check_rest (index y0) ys) as [[]|]; [|done].
  by rewrite Htrain.
Qed.

(** X28. Given series that are consistent with each other and a
    training series whose index passes [check_time_index], the call raises
    exactly when the maximum of the training index is greater than or equal
    to the minimum of the index of the first series as the code compares
    the two, and what it raises then is the error for a training series
    that is not before. The comparison is the exact one when the two
    indexes have one label dtype or no label reaches 2^53; the maximum of a
    signed index and the minimum of a [UInt64Index], or the other way
    round, are compared as float64 numbers. Training [0, 1, 2, 3] against
    [3, 4, 5] is refused, the two meet at 3; training [0, 1, 2] against
    [3, 4, 5] passes. *)
Theorem check_consistent_time_index_train
    (y0 : Series) (ys : list Series) (y_train : Series) :
  check_consistent_time_index (y0 :: ys) None = Ok () →
  valid_index y_train →
  (raises (check_consistent_time_index (y0 :: ys) (Some y_train)) ↔
     ∃ M m, is_max (values (index y_train)) M ∧
            is_min (values (index y0)) m ∧
            compared_ge (comparison_of (index y_train) (index y0)) M m) ∧
  (exact_labels (index y_train) (index y0) →
     raises (check_consistent_time_index (y0 :: ys) (Some y_train)) ↔
     ∃ M m, is_max (values (index y_train)) M ∧
            is_min (values (index y0)) m ∧ m ≤ M) ∧
  (raises (check_consistent_time_index (y0 :: ys) (Some y_train)) →
     check_consistent_time_index (y0 :: ys) (Some y_train) = Raise TrainNotBeforePred) ∧
  (¬ raises (check_consistent_time_index (y0 :: ys) (Some y_train)) →
     check_consistent_time_index (y0 :: ys) (Some y_train) = Ok ()).
Proof.
  intros Hys Htrain. rewrite (check_train _ _ _ Hys Htrain).
  split_and!.
  - rewrite <- nan_ge_spec. destruct (nan_ge _ _ _).
    + split; [done | by eexists].
    + split; [by intros [? ?] | done].
  - intros Hex. rewrite <- (nan_ge_exact _ _ Hex). destruct (nan_ge _ _ _).
    + split; [done | by eexists].
    + split; [by intros [? ?] | done].
  - destruct (nan_ge _ _ _); [done | by intros [? ?]].
  - destruct (nan_ge _ _ _); [|done]. intros Hno. destruct Hno. by eexists.
Qed.

Lemma check_consistent_time_index_train_witness :
  let test := series_of Int64Index [3; 4; 5] in
  check_consistent_time_index [test] (Some (series_of RangeIndex [0; 1; 2; 3]))
    = Raise TrainNotBeforePred ∧
  check_consistent_time_index [test] (Some (series_of RangeIndex [0; 1; 2])) = Ok ().
Proof.
  split.
  - refine (proj1 (proj2 (proj2 (check_consistent_time_index_train
             (series_of Int64Index [3; 4; 5]) [] (series_of RangeIndex [0; 1; 2; 3]) _ _))) _);
      [reflexivity | reflexivity |]. by eexists.
  - refine (proj2 (proj2 (proj2 (check_consistent_time_index_train
             (series_of Int64Index [3; 4; 5]) [] (series_of RangeIndex [0; 1; 2]) _ _))) _);
      [reflexivity | reflexivity |]. intros [e He]. discriminate He.
Defined.

(** C4. The call does not raise only when the maximum of the training
    index is greater than or equal to the minimum of the first index: the
    training index [UInt64Index([2^53])] has a maximum smaller than the
    minimum of the index [Int64Index([2^53 + 1])], and the call raises all
    the same, as the two are compared as float64 numbers, where both are
    2^53. *)
Lemma check_consistent_time_index_train_float64 :
  let test := series_of Int64Index [2 ^ 53 + 1] in
  let train := series_of UInt64Index [2 ^ 53] in
  check_consistent_time_index [test] None = Ok () ∧
  valid_index train ∧
  check_consistent_time_index [test] (Some train) = Raise TrainNotBeforePred ∧
  ¬ (∃ M m, is_max (values (index train)) M ∧
            is_min (values (index test)) m ∧ m ≤ M).
Proof.
  split_and!.
  - vm_compute. reflexivity.
  - vm_compute. reflexivity.
  - vm_compute. reflexivity.
  - intros (M & m & [HM _] & [Hm _] & Hle).
    apply list_elem_of_singleton in HM as ->. apply list_elem_of_singleton in Hm as ->.
    vm_compute in Hle. by apply Hle.
Qed.

(** ** check_X *)

(** Series cells are compared by their own indexes: [0, 1, 2] next to
    [0, 1, 2] passes, [0, 1, 2] next to [0, 1] is refused and the second
    column is named. *)
Lemma check_X_series_cells :
  let X := mkDataFrame ["a"; "b"] [[series_cell [0; 1; 2]; series_cell [0; 1; 2]]] in
  let X' := mkDataFrame ["a"; "b"] [[series_cell [0; 1; 2]; series_cell [0; 1]]] in
  check_X (XDataFrame X) = Ok X ∧
  check_X (XDataFrame X') = Raise (XUnequalIndex "b").
Proof. by split. Qed.

(** C3. The index made up for a raw cell of a later column is sized by the
    first cell, not by the cell itself: a table with a raw cell of three
    observations in column a and one of two observations in column b is
    returned, although the effective indexes of the two cells differ. *)
Theorem check_X_raw_cell_sized_by_first_column :
  let X := mkDataFrame ["a"; "b"] [[raw_cell 3; raw_cell 2]] in
  check_X (XDataFrame X) = Ok X ∧
  effective_index (raw_cell 3) = Ok (pd_RangeIndex 3) ∧
  effective_index (raw_cell 2) = Ok (pd_RangeIndex 2) ∧
  array_equal (pd_RangeIndex 3) (pd_RangeIndex 2) = false.
Proof. by split_and!. Qed.

Lemma iloc_row (cols : list string) (row : list cell) (c : nat) :
  iloc (mkDataFrame cols [row]) 0 c =
    match row !! c with Some x => Ok x | None => Raise IndexerOutOfBounds end.
Proof. reflexivity. Qed.

(** Whatever the sizes of the raw cells after the first, the comparison of
    the columns finds nothing. *)
Lemma compare_columns_raw (cols : list string) (n : nat) (sizes : list nat) :
  ∀ (names : list string) (c : nat),
    (c + length names ≤ S (length sizes))%nat →
    compare_columns (mkDataFrame cols [raw_cell <$> (n :: sizes)])
      (pd_RangeIndex n) c names = Ok ().
Proof.
  intros names. induction names as [|col names IH]; intros c Hc; [done|].
  change (length (col :: names)) with (S (length names)) in Hc.
  cbn [compare_columns]. rewrite !iloc_row.
  destruct (lookup_lt_is_Some_2 (raw_cell <$> n :: sizes) c) as [x Hx].
  { rewrite length_fmap. simpl. lia. }
  rewrite Hx. apply list_lookup_fmap_Some in Hx as (k & -> & _).
  change ((raw_cell <$> n :: sizes) !! 0%nat) with (Some (raw_cell n)).
  cbn [mbind result_bind cell_index raw_cell shape0 shape].
  rewrite length_replicate. unfold array_equal.
  rewrite labels_equal_refl. cbn [negb]. apply IH. lia.
Qed.

Lemma check_X_raw_row (cols : list string) (n : nat) (sizes : list nat) :
  let X := mkDataFrame cols [raw_cell <$> (S n :: sizes)] in
  length cols = S (length sizes) →
  check_X (XDataFrame X) = Ok X.
Proof.
  intros X Hlen. unfold check_X, X. cbn [rows length Nat.ltb Nat.leb].
  rewrite iloc_row.
  change ((raw_cell <$> S n :: sizes) !! 0%nat) with (Some (raw_cell (S n))).
  cbn [mbind result_bind].
  change (cell_index (raw_cell (S n))) with (@None Index).
  change (shape0 (raw_cell (S n))) with (Ok (A:=nat) (length (replicate (S n) 0))).
  rewrite length_replicate. cbn [mbind result_bind].
  replace (length (values (pd_RangeIndex (S n)))) with (S n)
    by (unfold pd_RangeIndex; cbn [values]; by rewrite length_fmap, length_seq).
  cbn [Nat.ltb Nat.leb].
  cbn [columns].
  rewrite (compare_columns_raw cols (S n) sizes cols 0%nat); [done|]. lia.
Qed.

(** In a row of series cells each cell is compared by its own index: the
    comparison of the columns succeeds exactly when every cell from column
    [c] on has the labels of the reference index, as [np.array_equal]
    compares them, and names a column whose cell has other labels when it
    fails. *)
Lemma compare_columns_series (cols : list string) (ss : list Series) (fi : Index) :
  ∀ (names : list string) (c : nat),
    (c + length names = length ss)%nat →
    let X := mkDataFrame cols [CSeries <$> ss] in
    (compare_columns X fi c names = Ok () ∧
       Forall (fun s => same_labels fi (index s)) (drop c ss)) ∨
    (∃ j col s, names !! j = Some col ∧ ss !! (c + j)%nat = Some s ∧
       ¬ same_labels fi (index s) ∧
       compare_columns X fi c names = Raise (XUnequalIndex col)).
Proof.
  intros names. induction names as [|col names IH]; intros c Hc X.
  - left. split; [done|]. simpl in Hc. rewrite drop_ge by lia. constructor.
  - change (length (col :: names)) with (S (length names)) in Hc.
    destruct (lookup_lt_is_Some_2 ss c) as [s Hs]; [lia|].
    assert (iloc X 0 c = Ok (CSeries s)) as Hiloc.
    { unfold X. by rewrite iloc_row, list_lookup_fmap, Hs. }
    cbn [compare_columns]. rewrite Hiloc. cbn [mbind result_bind cell_index].
    unfold array_equal. destruct (labels_equal fi (index s)) eqn:Heq; cbn [negb].
    + apply labels_equal_spec in Heq.
      destruct (IH (S c) ltac:(lia)) as [[Hok Hall]|(j & col' & s' & Hj & Hs' & Hne & Hr)].
      * left. split; [done|]. rewrite (drop_S _ _ _ Hs). by constructor.
      * right. exists (S j), col', s'. split_and!; try done.
        by replace (c + S j)%nat with (S c + j)%nat by lia.
    + right. exists 0%nat, col, s. split_and!; try done.
      * by rewrite Nat.add_0_r.
      * intros Hsame. apply labels_equal_spec in Hsame. congruence.
Qed.

(** * Further properties of the validators *)

(** ** check_fh *)

Lemma check_fh_ref (h : heap) (l : loc) (a : ndarray) :
  h !! l = Some a → check_fh (Ref l) h = fh_array_outcome l a h.
Proof.
  intros Hl. destruct a as [dt | dt data | dt d0 d1 ds]; simpl.
  - unfold check_fh. unfold_M. simpl. rewrite Hl. simpl.
    destruct (issubdtype_integer dt); simpl; [|done]. by rewrite Hl.
  - destruct (issubdtype_integer dt) eqn:Hdt.
    + by apply check_fh_array.
    + unfold check_fh. unfold_M. simpl. rewrite Hl. simpl. by rewrite Hdt.
  - unfold check_fh. unfold_M. simpl. by rewrite Hl.
Qed.

Lemma fh_array_outcome_store (l : loc) (a : ndarray) (h : heap) :
  h !! l = Some a →
  match fh_array_outcome l a h with
  | (Raise _, h') => h' = h
  | (Ok v, h') =>
      v = Ref l ∧ ∃ dt data, a = Nd1 dt data ∧ h' = <[l := Nd1 dt (sorted data)]> h
  end.
Proof.
  intros Hl. destruct a as [dt | dt data | dt d0 d1 ds]; simpl; try done.
  destruct (issubdtype_integer dt); [|done].
  unfold validated. repeat case_decide; try done. eauto.
Qed.

(** X1. The checks of the horizon array come in a fixed order: the number of
    dimensions, the dtype, the length, the duplicates. An array of two or
    more dimensions is refused for its shape whatever its dtype; a
    zero-dimensional integer array passes the test on dimensions, which only
    turns away more than one, and fails in [len] with a [TypeError]; a
    one-dimensional integer array is refused when empty, then when a value
    repeats, and otherwise sorted where it is. *)
Theorem check_fh_array_outcomes (h : heap) (l : loc) (a : ndarray) :
  h !! l = Some a →
  check_fh (Ref l) h = fh_array_outcome l a h ∧
  exn_of LenOfUnsized = Some TypeError.
Proof. intros Hl. split; [by apply check_fh_ref | done]. Qed.

Lemma check_fh_array_outcomes_witness :
  let h : heap := {[ 2%nat := Nd0 signed_int ]} in
  check_fh (Ref 2%nat) h = (Raise LenOfUnsized, h) ∧
  exn_of LenOfUnsized = Some TypeError.
Proof. apply (check_fh_array_outcomes _ 2%nat (Nd0 signed_int)). reflexivity. Defined.

(** X2. A horizon array that [check_fh] refuses is left as it was: when the
    call raises, the store is the store before the call. *)
Theorem check_fh_refusal_keeps_store (h : heap) (l : loc) (e : error) :
  (check_fh (Ref l) h).1 = Raise e → (check_fh (Ref l) h).2 = h.
Proof.
  destruct (h !! l) as [a|] eqn:Hl.
  - rewrite (check_fh_ref _ _ _ Hl). pose proof (fh_array_outcome_store l a h Hl) as Hst.
    destruct (fh_array_outcome l a h) as [[v|e'] h']; simpl; [done|]. by intros _.
  - unfold check_fh. unfold_M. simpl. by rewrite Hl.
Qed.

Lemma check_fh_refusal_keeps_store_witness :
  let h : heap := {[ 0%nat := Nd1 signed_int [2; 1; 2] ]} in
  (check_fh (Ref 0%nat) h).2 = h.
Proof.
  apply (check_fh_refusal_keeps_store _ 0%nat FhDuplicates).
  vm_compute. reflexivity.
Defined.

(** X3. When [check_fh] accepts an array it returns that same array, not a
    copy, and the array then holds the elements it had, sorted: what the
    caller reads from it has changed exactly when the elements were not in
    ascending order before. *)
Theorem check_fh_array_returned_sorted (h h' : heap) (l : loc) (v : arg) :
  check_fh (Ref l) h = (Ok v, h') →
  v = Ref l ∧
  ∃ data, contents h l = Some data ∧ contents h' l = Some (sorted data) ∧
          (contents h' l = contents h l ↔ Sorted Z.le data).
Proof.
  destruct (h !! l) as [a|] eqn:Hl.
  - rewrite (check_fh_ref _ _ _ Hl). pose proof (fh_array_outcome_store l a h Hl) as Hst.
    intros Hok. rewrite Hok in Hst. destruct Hst as (-> & dt & data & -> & ->).
    split; [done|]. exists data. unfold contents. rewrite Hl, lookup_insert_eq.
    split_and!; try done. split.
    + intros [= Heq]. rewrite <- Heq. apply sorted_Sorted.
    + intros Hs. by rewrite sorted_fixpoint.
  - unfold check_fh. unfold_M. simpl. by rewrite Hl.
Qed.

Lemma check_fh_array_returned_sorted_witness :
  let h : heap := {[ 0%nat := Nd1 signed_int [3; 1] ]} in
  let h' : heap := {[ 0%nat := Nd1 signed_int [1; 3] ]} in
  Ref 0%nat = Ref 0%nat ∧
  ∃ data, contents h 0%nat = Some data ∧ contents h' 0%nat = Some (sorted data) ∧
          (contents h' 0%nat = contents h 0%nat ↔ Sorted Z.le data).
Proof.
  apply (check_fh_array_returned_sorted
           {[ 0%nat := Nd1 signed_int [3; 1] ]}
           {[ 0%nat := Nd1 signed_int [1; 3] ]}
           0%nat (Ref 0%nat)).
  vm_compute. reflexivity.
Defined.

Lemma check_fh_value_Ok (v : pyval) (h h' : heap) (x : arg) :
  check_fh (Val v) h = (Ok x, h') →
  ∃ zs, fh_values (Val v) h = Some zs ∧ x = Ref (fresh (dom h)) ∧
        h' = <[fresh (dom h) := Nd1 signed_int (sorted zs)]> h.
Proof.
  destruct v as [| z | f | xs]; try done.
  - rewrite check_fh_int. destruct (fits_int64 z); [|done]. intros [= <- <-].
    by exists [z].
  - destruct (forallb is_int xs) eqn:Hint.
    + rewrite check_fh_list by done. simpl. rewrite Hint.
      destruct (forallb fits_int64 _); [|done]. unfold validated.
      repeat case_decide; try done. intros [= <- <-].
      exists (int_of <$> xs). by rewrite insert_insert_eq.
    + unfold check_fh. unfold_M. simpl. by rewrite Hint.
Qed.

(** X4. A horizon given as an integer or as a list comes back as a new
    array: the reference returned was not in the store before, it holds the
    values sorted, and every array that was in the store is unchanged. *)
Theorem check_fh_value_fresh (v : pyval) (h h' : heap) (x : arg) :
  check_fh (Val v) h = (Ok x, h') →
  ∃ l zs, x = Ref l ∧ h !! l = None ∧
          fh_values (Val v) h = Some zs ∧ contents h' l = Some (sorted zs) ∧
          ∀ l', is_Some (h !! l') → h' !! l' = h !! l'.
Proof.
  intros (zs & Hzs & -> & ->)%check_fh_value_Ok.
  exists (fresh (dom h)), zs. split_and!; try done.
  - apply not_elem_of_dom, is_fresh.
  - unfold contents. by rewrite lookup_insert_eq.
  - intros l' Hl'. by apply insert_fresh_lookup.
Qed.

Lemma check_fh_value_fresh_witness :
  let h : heap := {[ 0%nat := Nd1 signed_int [7] ]} in
  let h' : heap := {[ 0%nat := Nd1 signed_int [7]; 1%nat := Nd1 signed_int [1; 2] ]} in
  ∃ l zs, Ref 1%nat = Ref l ∧ h !! l = None ∧
          fh_values (Val (VList [VInt 2; VInt 1])) h = Some zs ∧
          contents h' l = Some (sorted zs) ∧
          ∀ l', is_Some (h !! l') → h' !! l' = h !! l'.
Proof.
  apply (check_fh_value_fresh (VList [VInt 2; VInt 1])
           {[ 0%nat := Nd1 signed_int [7] ]}
           {[ 0%nat := Nd1 signed_int [7]; 1%nat := Nd1 signed_int [1; 2] ]}
           (Ref 1%nat)).
  vm_compute. reflexivity.
Defined.

Lemma forallb_Permutation {A} (f : A → bool) (l1 l2 : list A) :
  l1 ≡ₚ l2 → forallb f l1 = forallb f l2.
Proof.
  induction 1 as [|x l1 l2 _ IH|x y l|l1 l2 l3 _ IH1 _ IH2]; simpl.
  - done.
  - by rewrite IH.
  - by rewrite !andb_assoc, (andb_comm (f y)).
  - congruence.
Qed.

Lemma sorted_Permutation_eq (l1 l2 : list Z) : l1 ≡ₚ l2 → sorted l1 = sorted l2.
Proof.
  intros Hp. apply (Sorted_unique Z.le); auto using sorted_Sorted.
  by rewrite !sorted_Permutation.
Qed.

Lemma check_fh_list_result (h : heap) (xs : list pyval) :
  (check_fh (Val (VList xs)) h).1 =
    if negb (forallb is_int xs) then Raise FhListNotInt
    else if negb (forallb fits_int64 (int_of <$> xs)) then Raise IntTooLarge
    else if decide (xs = []) then Raise FhEmpty
    else if decide (NoDup (int_of <$> xs)) then Ok (Ref (fresh (dom h)))
    else Raise FhDuplicates.
Proof.
  destruct (forallb is_int xs) eqn:Hint; simpl.
  - rewrite check_fh_list by done. simpl.
    destruct (forallb fits_int64 _); simpl; [|done]. unfold validated.
    destruct xs as [|x xs]; [done|]. rewrite !(decide_False (P := _ = [])) by done.
    by case_decide.
  - unfold check_fh. unfold_M. simpl. by rewrite Hint.
Qed.

(** X5. The order in which the steps of a horizon are listed does not
    matter: two lists that are rearrangements of each other are accepted or
    refused alike, with the same error, and when accepted give the same
    array. *)
Theorem check_fh_list_order (h : heap) (xs ys : list pyval) :
  xs ≡ₚ ys →
  (check_fh (Val (VList xs)) h).1 = (check_fh (Val (VList ys)) h).1 ∧
  (∀ x h', check_fh (Val (VList xs)) h = (Ok x, h') →
           check_fh (Val (VList ys)) h = (Ok x, h')).
Proof.
  intros Hp. assert (int_of <$> xs ≡ₚ int_of <$> ys) as Hpz by by apply fmap_Permutation.
  split.
  - rewrite !check_fh_list_result.
    rewrite (forallb_Permutation _ _ _ Hp), (forallb_Permutation _ _ _ Hpz).
    destruct (negb (forallb is_int ys)); [done|].
    destruct (negb (forallb fits_int64 _)); [done|].
    destruct (decide (xs = [])) as [->|Hx].
    + rewrite (decide_True (P := ys = [])); [done | symmetry; by apply Permutation_nil_l].
    + rewrite (decide_False (P := ys = [])).
      2:{ intros ->. by apply Permutation_nil_r in Hp. }
      destruct (decide (NoDup (int_of <$> xs))) as [Hn|Hn].
      * rewrite decide_True; [done|]. by rewrite <- Hpz.
      * rewrite decide_False; [done|]. by rewrite <- Hpz.
  - intros x h' Hok.
    destruct (forallb is_int xs) eqn:Hint.
    2:{ unfold check_fh in Hok. unfold_M. simpl in Hok. by rewrite Hint in Hok. }
    rewrite check_fh_list in Hok by done.
    rewrite check_fh_list by (by rewrite <- (forallb_Permutation _ _ _ Hp)).
    simpl in *. rewrite <- (forallb_Permutation _ _ _ Hpz).
    destruct (forallb fits_int64 _); [|done]. unfold validated in *.
    destruct (decide (int_of <$> xs = [])) as [|Hx]; [done|].
    destruct (decide (NoDup (int_of <$> xs))) as [Hn|]; [|done].
    rewrite decide_False.
    2:{ intros Hy. apply Hx, Permutation_nil_r. by rewrite <- Hy. }
    rewrite decide_True by (by rewrite <- Hpz).
    rewrite insert_insert_eq in *. by rewrite <- (sorted_Permutation_eq _ _ Hpz).
Qed.

Lemma check_fh_list_order_witness :
  (check_fh (Val (VList [VInt 3; VInt 1])) ∅).1 =
  (check_fh (Val (VList [VInt 1; VInt 3])) ∅).1.
Proof.
  apply (check_fh_list_order ∅ [VInt 3; VInt 1] [VInt 1; VInt 3]).
  apply Permutation_swap.
Defined.

(** X6. A single integer is treated as the list that holds it: the two calls
    have the same outcome and leave the same store. *)
Theorem check_fh_int_as_list (h : heap) (z : Z) :
  check_fh (Val (VInt z)) h = check_fh (Val (VList [VInt z])) h.
Proof.
  rewrite check_fh_int, check_fh_list by done. simpl. rewrite andb_true_r.
  destruct (fits_int64 z); [|done]. unfold validated.
  rewrite decide_False by done. rewrite decide_True by apply NoDup_singleton.
  rewrite insert_insert_eq. by rewrite sorted_fixpoint by repeat constructor.
Qed.

(** ** check_cutoffs *)

Lemma forallb_const {A} (b : bool) (l : list A) :
  forallb (fun _ => b) l = bool_decide (l = []) || b.
Proof. induction l as [|x l IH]; [done|]. simpl. rewrite IH. by destruct b, l. Qed.

Lemma check_cutoffs_ref (h : heap) (l : loc) (a : ndarray) :
  h !! l = Some a → check_cutoffs (Ref l) h = cutoffs_array_outcome a h.
Proof.
  intros Hl. unfold check_cutoffs. unfold_M. simpl. rewrite Hl. simpl.
  destruct a as [dt | dt data | dt d0 d1 ds]; simpl; [done | |].
  - rewrite forallb_const. destruct data as [|z data]; simpl; [done|].
    by destruct (issubdtype_integer dt).
  - rewrite forallb_const. destruct d0 as [|d0]; simpl; done.
Qed.

(** X7. What [check_cutoffs] does with an array: a one-dimensional array is
    refused when it is empty, whatever its dtype, then when its dtype is not
    an integer one, and is otherwise copied, sorted, into a new array. An
    array of more dimensions is refused for its elements not being integers,
    unless its first axis is empty, and then for its dimensions. Iterating a
    zero-dimensional array raises a [TypeError]. *)
Theorem check_cutoffs_outcomes (h : heap) (l : loc) (a : ndarray) :
  h !! l = Some a →
  check_cutoffs (Ref l) h = cutoffs_array_outcome a h ∧
  exn_of IterationOver0d = Some TypeError.
Proof. intros Hl. split; [by apply check_cutoffs_ref | done]. Qed.

Lemma check_cutoffs_outcomes_witness :
  let h : heap := {[ 0%nat := Nd1 floating [] ]} in
  check_cutoffs (Ref 0%nat) h = (Raise CutoffsEmpty, h) ∧
  exn_of IterationOver0d = Some TypeError.
Proof. apply (check_cutoffs_outcomes _ 0%nat (Nd1 floating [])). reflexivity. Defined.

Lemma check_cutoffs_Ok (c x : arg) (h h' : heap) :
  check_cutoffs c h = (Ok x, h') →
  ∃ l dt data, c = Ref l ∧ h !! l = Some (Nd1 dt data) ∧
    issubdtype_integer dt = true ∧ data ≠ [] ∧
    x = Ref (fresh (dom h)) ∧ h' = <[fresh (dom h) := Nd1 dt (sorted data)]> h.
Proof.
  destruct c as [v|l]; [done|].
  destruct (h !! l) as [a|] eqn:Hl.
  - rewrite (check_cutoffs_ref _ _ _ Hl).
    destruct a as [dt | dt data | dt d0 d1 ds]; simpl; [done | | done].
    case_decide as Hnil; [done|].
    destruct (issubdtype_integer dt) eqn:Hdt; [|done].
    intros [= <- <-]. by exists l, dt, data.
  - unfold check_cutoffs. unfold_M. simpl. by rewrite Hl.
Qed.

(** X8. The cutoffs returned are a sorted copy: the array returned is new,
    holds the values of the argument in ascending order, each as many times
    as it was there, and the argument and every other array of the store
    are unchanged. *)
Theorem check_cutoffs_sorted_copy (c x : arg) (h h' : heap) :
  check_cutoffs c h = (Ok x, h') →
  ∃ l l' data out,
    c = Ref l ∧ x = Ref l' ∧ h !! l' = None ∧
    contents h l = Some data ∧ contents h' l' = Some out ∧
    Sorted Z.le out ∧ out ≡ₚ data ∧
    ∀ l'', is_Some (h !! l'') → h' !! l'' = h !! l''.
Proof.
  intros (l & dt & data & -> & Hl & _ & _ & -> & ->)%check_cutoffs_Ok.
  exists l, (fresh (dom h)), data, (sorted data). split_and!; try done.
  - apply not_elem_of_dom, is_fresh.
  - unfold contents. by rewrite Hl.
  - unfold contents. by rewrite lookup_insert_eq.
  - apply sorted_Sorted.
  - apply sorted_Permutation.
  - intros l'' Hl''. by apply insert_fresh_lookup.
Qed.

Lemma check_cutoffs_sorted_copy_witness :
  let h : heap := {[ 0%nat := Nd1 signed_int [5; 2; 5] ]} in
  let h' : heap := {[ 0%nat := Nd1 signed_int [5; 2; 5]; 1%nat := Nd1 signed_int [2; 5; 5] ]} in
  ∃ l l' data out,
    Ref 0%nat = Ref l ∧ Ref 1%nat = Ref l' ∧ h !! l' = None ∧
    contents h l = Some data ∧ contents h' l' = Some out ∧
    Sorted Z.le out ∧ out ≡ₚ data ∧
    ∀ l'', is_Some (h !! l'') → h' !! l'' = h !! l''.
Proof.
  apply (check_cutoffs_sorted_copy (Ref 0%nat) (Ref 1%nat)
           {[ 0%nat := Nd1 signed_int [5; 2; 5] ]}
           {[ 0%nat := Nd1 signed_int [5; 2; 5]; 1%nat := Nd1 signed_int [2; 5; 5] ]}).
  vm_compute. reflexivity.
Defined.

(** X9. [check_cutoffs] takes every array that [check_fh] takes and sorts it
    to the same values; the arrays it takes and [check_fh] refuses are those
    in which a value repeats. *)
Theorem check_cutoffs_accepts_horizons (h : heap) (l : loc) :
  (∀ v h', check_fh (Ref l) h = (Ok v, h') →
     ∃ l' h'', check_cutoffs (Ref l) h = (Ok (Ref l'), h'') ∧
               contents h'' l' = contents h' l) ∧
  (∀ x h'' data, check_cutoffs (Ref l) h = (Ok x, h'') →
     contents h l = Some data →
     (raises (check_fh (Ref l) h).1 ↔ ¬ NoDup data) ∧
     (¬ NoDup data → (check_fh (Ref l) h).1 = Raise FhDuplicates)).
Proof.
  split.
  - intros v h' Hok. destruct (h !! l) as [a|] eqn:Hl.
    2:{ unfold check_fh in Hok. unfold_M. simpl in Hok. by rewrite Hl in Hok. }
    rewrite (check_fh_ref _ _ _ Hl) in Hok. rewrite (check_cutoffs_ref _ _ _ Hl).
    destruct a as [dt | dt data | dt d0 d1 ds]; simpl in *; try done.
    destruct (issubdtype_integer dt); [|done].
    unfold validated in Hok. repeat case_decide; try done.
    injection Hok as <- <-. eexists _, _. split; [done|].
    unfold contents. by rewrite !lookup_insert_eq.
  - intros x h'' data (l0 & dt & data0 & [= <-] & Hl & Hdt & Hne & _)%check_cutoffs_Ok.
    unfold contents. rewrite Hl. intros [= <-].
    rewrite (check_fh_ref _ _ _ Hl). simpl. rewrite Hdt. unfold validated.
    rewrite decide_False by done.
    destruct (decide (NoDup data0)) as [Hn|Hn]; simpl.
    + split; [|done]. split; [by intros [? ?] | done].
    + split; [|done]. split; [done | by eexists].
Qed.

Lemma check_cutoffs_accepts_horizons_witness :
  let h : heap := {[ 0%nat := Nd1 signed_int [4; 4] ]} in
  (check_fh (Ref 0%nat) h).1 = Raise FhDuplicates.
Proof.
  refine (proj2 (proj2 (check_cutoffs_accepts_horizons
            {[ 0%nat := Nd1 signed_int [4; 4] ]} 0%nat)
            (Ref 1%nat) _ [4; 4] _ _) _).
  - vm_compute. reflexivity.
  - reflexivity.
  - intros Hn. apply NoDup_cons in Hn as [Hin _]. apply Hin. left.
Defined.

(** ** check_window_length, check_step_length, check_sp *)

Lemma positive_int_or_none_dec (v : pyval) :
  positive_int_or_none v ↔
  match v with VNone => True | VInt z => 1 ≤ z | _ => False end.
Proof.
  unfold positive_int_or_none. destruct v as [| z | f | xs]; split; try done.
  - by left.
  - intros [|(z' & [= <-] & Hz)]; done.
  - intros Hz. right. by exists z.
  - by intros [|(z' & ? & _)].
  - by intros [|(z' & ? & _)].
Qed.

(** X10. The three integer validators agree. Each returns its argument,
    unchanged, exactly when it is [None] or an integer that is at least 1,
    and raises its own [ValueError] for every other value: zero, negative
    integers, floats (even whole ones) and lists. *)
Theorem integer_validators_accept (v : pyval) :
  (positive_int_or_none v →
     check_window_length v = Ok v ∧ check_step_length v = Ok v ∧ check_sp v = Ok v) ∧
  (¬ positive_int_or_none v →
     check_window_length v = Raise (WindowLengthInvalid v) ∧
     check_step_length v = Raise (StepLengthInvalid v) ∧
     check_sp v = Raise SpInvalid) ∧
  exn_of (WindowLengthInvalid v) = Some ValueError ∧
  exn_of (StepLengthInvalid v) = Some ValueError ∧
  exn_of SpInvalid = Some ValueError.
Proof.
  rewrite positive_int_or_none_dec.
  unfold check_window_length, check_step_length, check_sp.
  destruct v as [| z | f | xs]; simpl; split_and!; try done.
  - intros Hz. by destruct (Z.ltb_spec z 1); [lia|].
  - intros Hz. by destruct (Z.ltb_spec z 1); [|lia].
Qed.

Lemma integer_validators_accept_witness :
  check_window_length (VInt 5) = Ok (VInt 5) ∧
  check_step_length (VInt 5) = Ok (VInt 5) ∧
  check_sp (VInt 5) = Ok (VInt 5).
Proof.
  apply (integer_validators_accept (VInt 5)). right. exists 5. split; [reflexivity | lia].
Defined.

(** ** check_alpha *)

Lemma forallb_is_float_inv (l : list pyval) :
  forallb is_float l = true → ∃ fs, l = VFloat <$> fs.
Proof.
  induction l as [|[| z | f | xs] l IH]; simpl; try done.
  - by exists [].
  - intros (fs & ->)%IH. by exists (f :: fs).
Qed.

Lemma check_alpha_floats (fs : list float) :
  (check_alpha (VList (VFloat <$> fs)) = Ok (VList (VFloat <$> fs)) ∧
     Forall strictly_between_0_1 fs) ∨
  (∃ a, check_alpha (VList (VFloat <$> fs)) = Raise (AlphaOutOfRange (VFloat a)) ∧
        a ∈ fs ∧ ¬ strictly_between_0_1 a).
Proof.
  unfold check_alpha. rewrite forallb_is_float. cbn [negb mbind result_bind iterate].
  destruct (check_range_floats fs) as [[-> Hall]|(a & -> & Ha & Hout)].
  - by left.
  - right. by exists a.
Qed.

Lemma check_alpha_Ok (v w : pyval) :
  check_alpha v = Ok w →
  ∃ fs, w = VList (VFloat <$> fs) ∧ Forall strictly_between_0_1 fs ∧
        (v = w ∨ (∃ f, v = VFloat f ∧ fs = [f])).
Proof.
  destruct v as [| z | f | xs]; try done.
  - change (check_alpha (VFloat f)) with (check_alpha (VList (VFloat <$> [f]))).
    destruct (check_alpha_floats [f]) as [[-> Hall]|(a & -> & _)]; [|done].
    intros [= <-]. exists [f]. split_and!; try done. right. by exists f.
  - destruct (forallb is_float xs) eqn:Hfl.
    + apply forallb_is_float_inv in Hfl as (fs & ->).
      destruct (check_alpha_floats fs) as [[-> Hall]|(a & -> & _)]; [|done].
      intros [= <-]. exists fs. split_and!; try done. by left.
    + unfold check_alpha. by rewrite Hfl.
Qed.

(** X11. For an argument that is a float or a list, whatever
    [check_alpha] returns is a list of floats that all lie strictly between
    0 and 1: the argument itself when it was a list, the one-element list
    of the argument when it was a float. *)
Theorem check_alpha_returns_floats_in_range (v w : pyval) :
  (∃ f, v = VFloat f) ∨ (∃ l, v = VList l) →
  check_alpha v = Ok w →
  ∃ fs, w = VList (VFloat <$> fs) ∧ Forall strictly_between_0_1 fs ∧
        (v = w ∨ (∃ f, v = VFloat f ∧ fs = [f])).
Proof. intros _. apply check_alpha_Ok. Qed.

Lemma check_alpha_returns_floats_in_range_witness :
  ∃ fs, VList [VFloat 0.25; VFloat 0.5] = VList (VFloat <$> fs) ∧
        Forall strictly_between_0_1 fs ∧
        (VList [VFloat 0.25; VFloat 0.5] = VList [VFloat 0.25; VFloat 0.5] ∨
         (∃ f, VList [VFloat 0.25; VFloat 0.5] = VFloat f ∧ fs = [f])).
Proof.
  apply (check_alpha_returns_floats_in_range
           (VList [VFloat 0.25; VFloat 0.5]) (VList [VFloat 0.25; VFloat 0.5])).
  - right. by eexists.
  - vm_compute. reflexivity.
Defined.

(** X12. [check_alpha] is idempotent: what it returns passes again and comes
    back unchanged, so a validated confidence level can be validated again
    downstream. *)
Theorem check_alpha_idempotent (v w : pyval) :
  check_alpha v = Ok w → check_alpha w = Ok w.
Proof.
  intros (fs & -> & Hall & _)%check_alpha_Ok.
  destruct (check_alpha_floats fs) as [[Hok _]|(a & _ & Ha & Hout)]; [done|].
  rewrite Forall_forall in Hall. by destruct Hout; apply Hall.
Qed.

Lemma check_alpha_idempotent_witness :
  check_alpha (VList [VFloat 0.05]) = Ok (VList [VFloat 0.05]).
Proof.
  apply (check_alpha_idempotent (VFloat 0.05) (VList [VFloat 0.05])).
  vm_compute. reflexivity.
Defined.

(** X13. The values of a list are checked from the left and the first one out
    of range is the one the error names, whatever comes after it, also
    values that are out of range themselves. *)
Theorem check_alpha_names_first_out_of_range (pre post : list float) (a : float) :
  Forall strictly_between_0_1 pre →
  ¬ strictly_between_0_1 a →
  check_alpha (VList (VFloat <$> (pre ++ a :: post))) = Raise (AlphaOutOfRange (VFloat a)).
Proof.
  intros Hpre Ha. unfold check_alpha. rewrite forallb_is_float.
  cbn [negb mbind result_bind iterate].
  assert (check_range (VFloat <$> (pre ++ a :: post)) = Raise (AlphaOutOfRange (VFloat a)))
    as ->; [|done].
  induction Hpre as [|f pre Hf _ IH].
  - cbn [app]. rewrite fmap_cons. cbn [check_range between_0_1 mbind result_bind].
    rewrite <- in_open_unit_spec in Ha. by destruct (in_open_unit a).
  - rewrite <- app_comm_cons, fmap_cons. cbn [check_range between_0_1 mbind result_bind].
    apply in_open_unit_spec in Hf. by rewrite Hf.
Qed.

Lemma check_alpha_names_first_out_of_range_witness :
  check_alpha (VList [VFloat 0.5; VFloat 1.5; VFloat 2])
    = Raise (AlphaOutOfRange (VFloat 1.5)).
Proof.
  apply (check_alpha_names_first_out_of_range [0.5%float] [2%float] 1.5%float).
  - repeat constructor.
  - intros [_ H]. discriminate H.
Defined.

(** ** check_time_index *)

(** X14. An index that [check_time_index] returned passes again and comes
    back unchanged; in particular an array is wrapped once and the index
    made of it needs no further wrapping. *)
Theorem check_time_index_idempotent (ti : time_index_arg) (i : Index) :
  check_time_index ti = Ok i → check_time_index (TIndex i) = Ok i.
Proof.
  destruct (check_time_index_cases ti) as [[_ ->]|[(_ & _ & ->)|(Hk & Hs & ->)]]; try done.
  intros [= <-].
  destruct (check_time_index_cases (TIndex (wrap ti)))
    as [[Hk' _]|[(_ & Hs' & _)|(_ & _ & ->)]]; done.
Qed.

Lemma check_time_index_idempotent_witness :
  check_time_index (TIndex (mkIndex Int64Index [1; 2])) = Ok (mkIndex Int64Index [1; 2]).
Proof.
  apply (check_time_index_idempotent (TArray signed_int [1; 2])). reflexivity.
Defined.

Lemma Sorted_seq (start n : nat) : Sorted Z.le (Z.of_nat <$> seq start n).
Proof.
  revert start. induction n as [|n IH]; intros start; [constructor|].
  cbn [seq]. rewrite fmap_cons. constructor; [apply IH|].
  destruct n; cbn [seq]; [constructor|]. rewrite fmap_cons. constructor. lia.
Qed.

(** X15. Two kinds of index always pass: the dense range of any length,
    also the empty one, and the index wrapped around any integer array that
    was sorted before. *)
Theorem dense_and_sorted_indexes_pass (n : nat) (dt : dtype) (data : list Z) :
  check_time_index (TIndex (pd_RangeIndex n)) = Ok (pd_RangeIndex n) ∧
  (issubdtype_integer dt = true →
     check_time_index (TArray dt (sorted data)) = Ok (pd_Index dt (sorted data))).
Proof.
  split.
  - destruct (check_time_index_cases (TIndex (pd_RangeIndex n)))
      as [[Hk _]|[(_ & Hs & _)|(_ & _ & ->)]]; [| |done].
    + destruct Hk. by left.
    + destruct Hs. apply Sorted_seq.
  - intros Hdt.
    destruct (check_time_index_cases (TArray dt (sorted data)))
      as [[Hk _]|[(_ & Hs & _)|(_ & _ & ->)]]; [| |done].
    + destruct Hk. destruct dt; try done; [right; by left | right; by right].
    + destruct Hs. apply sorted_Sorted.
Qed.

Lemma dense_and_sorted_indexes_pass_witness :
  check_time_index (TArray unsigned_int (sorted [3; 1; 2]))
    = Ok (pd_Index unsigned_int (sorted [3; 1; 2])).
Proof. apply (dense_and_sorted_indexes_pass 0 unsigned_int [3; 1; 2]). reflexivity. Defined.

(** ** check_y *)

(** X16. With its default flags [check_y] returns a series exactly when it
    was given that series, the series has an observation, its index is of a
    supported class and its labels do not decrease. An empty series is
    refused for being empty before its index is looked at. *)
Theorem check_y_default (y : y_arg) :
  (∀ s, check_y y false true = Ok s ↔
        y = YSeries s ∧ items s ≠ [] ∧
        supported (index_kind_of s) ∧ Sorted Z.le (values (index s))) ∧
  (∀ s, y = YSeries s → items s = [] → check_y y false true = Raise YEmpty).
Proof.
  split.
  - intros s. destruct y as [y | a | v]; [| by split; [|intros [? _]] ..].
    unfold check_y. cbn [negb]. unfold series_len. rewrite length_lt_1.
    case_bool_decide as Hnil; cbn [mbind result_bind].
    { split; [done|]. by intros ([= ->] & ? & _). }
    destruct (check_time_index_cases (TIndex (index y)))
      as [[Hk ->]|[(Hk & Hs & ->)|(Hk & Hs & ->)]]; cbn [wrap] in *.
    + split; [done|]. by intros ([= ->] & _ & ? & _).
    + split; [done|]. by intros ([= ->] & _ & _ & ?).
    + split; [by intros [= <-] | by intros ([= ->] & _)].
  - intros s -> Hnil. unfold check_y, series_len. by rewrite Hnil.
Qed.

Lemma forallb_false_elem {A} (f : A → bool) (l : list A) :
  forallb f l = false → ∃ x, x ∈ l ∧ f x = false.
Proof.
  induction l as [|a l IH]; [done|]. simpl.
  destruct (f a) eqn:Hfa; simpl.
  - intros (x & Hx & Hfx)%IH. exists x. split; [by right | done].
  - intros _. exists a. split; [by left | done].
Qed.

(** X17. With [allow_constant=False] a series is returned, unchanged, only
    if it has a first observation and an observation that compares unequal
    to the first one; this holds whatever [allow_empty] is, so an empty
    series is never returned then. *)
Theorem check_y_not_constant (s s' : Series) (allow_empty : bool) :
  check_y (YSeries s) allow_empty false = Ok s' →
  s' = s ∧
  ∃ first x, head (series_values s) = Some first ∧
             x ∈ series_values s ∧ (x =? first)%float = false.
Proof.
  unfold check_y. cbn [negb].
  destruct (if negb allow_empty then _ else _) as [[]|]; [|done].
  cbn [mbind result_bind]. unfold iloc0.
  destruct (series_values s) as [|first rest] eqn:Hv; [done|].
  cbn [mbind result_bind]. unfold all_equal_to. rewrite Hv.
  destruct (forallb _ (first :: rest)) eqn:Hall; [done|]. cbn [mbind result_bind].
  destruct (check_time_index _) as [i|]; [|done]. cbn [mbind result_bind].
  intros [= <-]. split; [done|]. exists first.
  apply forallb_false_elem in Hall as (x & Hx & Hne). by exists x.
Qed.

Lemma check_y_not_constant_witness :
  let s := mkSeries RangeIndex [(0, 1%float); (1, 2%float)] in
  s = s ∧
  ∃ first x, head (series_values s) = Some first ∧
             x ∈ series_values s ∧ (x =? first)%float = false.
Proof.
  apply (check_y_not_constant (mkSeries RangeIndex [(0, 1%float); (1, 2%float)]) _ true).
  reflexivity.
Defined.

(** ** check_consistent_time_index *)

Lemma check_rest_Ok (first_index : Index) (ys : list Series) :
  check_rest first_index ys = Ok () ↔
  Forall valid_index ys ∧
  Forall (fun y => same_labels first_index (index y)) ys.
Proof.
  induction ys as [|y ys IH]; [by split|].
  cbn [check_rest]. rewrite !Forall_cons.
  destruct (check_time_index (TIndex (index y))) as [i|e] eqn:Hy; cbn [mbind result_bind].
  - apply check_time_index_valid in Hy. unfold index_equals.
    destruct (labels_equal first_index (index y)) eqn:Heq; cbn [negb].
    + apply labels_equal_spec in Heq. rewrite IH. naive_solver.
    + split; [done|]. intros [_ [Hs _]]. apply labels_equal_spec in Hs. congruence.
  - split; [done|]. intros [[Hv _] _]. unfold valid_index in Hv. congruence.
Qed.

Lemma check_consistent_Ok (y0 : Series) (ys : list Series) :
  check_consistent_time_index (y0 :: ys) None = Ok () ↔
  Forall valid_index (y0 :: ys) ∧
  Forall (fun y => same_labels (index y0) (index y)) ys.
Proof.
  unfold check_consistent_time_index. rewrite Forall_cons.
  destruct (check_time_index (TIndex (index y0))) as [i|e] eqn:Hy0; cbn [mbind result_bind].
  - apply check_time_index_valid in Hy0.
    destruct (check_rest (index y0) ys) as [[]|e] eqn:Hrest.
    + apply check_rest_Ok in Hrest. naive_solver.
    + split; [done|]. intros [[_ Hval] Hsame].
      assert (check_rest (index y0) ys = Ok ()) as Hok by (by apply check_rest_Ok).
      congruence.
  - split; [done|]. intros [[Hv _] _]. unfold valid_index in Hv. congruence.
Qed.

Lemma check_consistent_Ok_exact (ys : list Series) :
  exactly_compared ys →
  check_consistent_time_index ys None = Ok () ↔
  ys ≠ [] ∧ Forall valid_index ys ∧
  ∀ y y', y ∈ ys → y' ∈ ys → values (index y) = values (index y').
Proof.
  intros Hex. destruct ys as [|y0 ys]; [by split; [|intros [? _]]|].
  rewrite check_consistent_Ok.
  assert (Forall (fun y => same_labels (index y0) (index y)) ys ↔
          ∀ y, y ∈ y0 :: ys → values (index y) = values (index y0)) as ->.
  { rewrite Forall_forall. split.
    - intros Hall y [->|Hy]%elem_of_cons; [done|]. symmetry.
      apply same_labels_exact; [apply Hex; [by left | by right] | by apply Hall].
    - intros Hall y Hy. apply same_labels_exact; [apply Hex; [by left | by right]|].
      symmetry. apply Hall. by right. }
  split.
  - intros [Hval Hall]. split_and!; [done | done |].
    intros y y' Hy Hy'. by rewrite (Hall y), (Hall y').
  - intros (_ & Hval & Hall). split; [done|]. intros y Hy. apply Hall; [done | by left].
Qed.

Lemma exactly_compared_same_dtype (ys : list Series) (d : labels_dtype) :
  Forall (fun y => labels_dtype_of (index_kind_of y) = d) ys → exactly_compared ys.
Proof.
  rewrite Forall_forall. intros Hd y y' Hy Hy'. left.
  cbn [index kind]. by rewrite (Hd y), (Hd y').
Qed.

(** X18. For series whose indexes are compared exactly with each other,
    which is so when all the indexes have one label dtype and when no label
    reaches 2^53, the call without a training series succeeds exactly when
    it is given at least one series, the index of every series passes
    [check_time_index], and any two of the series have the same labels in
    the same order. *)
Theorem check_consistent_time_index_succeeds (ys : list Series) :
  exactly_compared ys →
  check_consistent_time_index ys None = Ok () ↔
  ys ≠ [] ∧ Forall valid_index ys ∧
  ∀ y y', y ∈ ys → y' ∈ ys → values (index y) = values (index y').
Proof. apply check_consistent_Ok_exact. Qed.

Lemma check_consistent_time_index_succeeds_witness :
  let ys := [series_of RangeIndex [0; 1]; series_of Int64Index [0; 1]] in
  check_consistent_time_index ys None = Ok () ↔
  ys ≠ [] ∧ Forall valid_index ys ∧
  ∀ y y', y ∈ ys → y' ∈ ys → values (index y) = values (index y').
Proof.
  apply (check_consistent_time_index_succeeds
           [series_of RangeIndex [0; 1]; series_of Int64Index [0; 1]]).
  apply (exactly_compared_same_dtype _ int64_labels). repeat constructor.
Defined.

(** X19. For series whose indexes are compared exactly with each other,
    which series comes first does not decide whether the call succeeds: a
    rearrangement of consistent series is consistent. *)
Theorem check_consistent_time_index_order (ys ys' : list Series) :
  exactly_compared ys →
  ys ≡ₚ ys' →
  check_consistent_time_index ys None = Ok () ↔
  check_consistent_time_index ys' None = Ok ().
Proof.
  intros Hex Hp.
  assert (exactly_compared ys') as Hex'.
  { intros y y' Hy Hy'. apply Hex; by rewrite Hp. }
  rewrite !check_consistent_Ok_exact by done.
  assert (ys ≠ [] ↔ ys' ≠ []) as ->.
  { split; intros Hne ->; apply Hne.
    - by apply Permutation_nil_r.
    - by apply Permutation_nil_l in Hp. }
  rewrite Hp. by setoid_rewrite Hp.
Qed.

Lemma check_consistent_time_index_order_witness :
  let A := series_of RangeIndex [0; 1] in
  let B := series_of Int64Index [0; 1] in
  check_consistent_time_index [A; B] None = Ok () ↔
  check_consistent_time_index [B; A] None = Ok ().
Proof.
  apply (check_consistent_time_index_order
           [series_of RangeIndex [0; 1]; series_of Int64Index [0; 1]]
           [series_of Int64Index [0; 1]; series_of RangeIndex [0; 1]]).
  - apply (exactly_compared_same_dtype _ int64_labels). repeat constructor.
  - apply Permutation_swap.
Defined.

(** X20. For consistent series and a training series with a valid index
    that is compared exactly with the index of the first series, the call
    succeeds exactly when every label of the training series is smaller
    than every label of the first series: the training series ends before
    the others begin. An empty index on either side makes this hold. *)
Theorem check_consistent_time_index_train_before
    (y0 : Series) (ys : list Series) (y_train : Series) :
  check_consistent_time_index (y0 :: ys) None = Ok () →
  valid_index y_train →
  exact_labels (index y_train) (index y0) →
  check_consistent_time_index (y0 :: ys) (Some y_train) = Ok () ↔
  ∀ a b, a ∈ values (index y_train) → b ∈ values (index y0) → a < b.
Proof.
  intros Hys Htrain Hex. rewrite (check_train _ _ _ Hys Htrain).
  pose proof (nan_ge_exact _ _ Hex) as Hge.
  destruct (nan_ge _ _ _).
  - destruct (proj1 Hge eq_refl) as (M & m & [HM _] & [Hm _] & Hle).
    split; [done|]. intros Hlt. specialize (Hlt M m HM Hm). lia.
  - split; [intros _|done]. intros a b Ha Hb.
    destruct (values (index y_train)) as [|x t] eqn:Hvt; [by apply elem_of_nil in Ha|].
    destruct (values (index y0)) as [|x0 t0] eqn:Hv0; [by apply elem_of_nil in Hb|].
    destruct (Z.lt_ge_cases a b) as [|Hba]; [done|].
    assert (false = true) as Habs; [|done].
    apply Hge. exists (foldr Z.max x t), (foldr Z.min x0 t0).
    pose proof (foldr_max_spec x t) as [HM HMub].
    pose proof (foldr_min_spec x0 t0) as [Hm Hmlb].
    split_and!; [by split | by split |].
    specialize (HMub a Ha). specialize (Hmlb b Hb). lia.
Qed.

Lemma check_consistent_time_index_train_before_witness :
  check_consistent_time_index [series_of Int64Index [3; 4]]
    (Some (series_of Int64Index [0; 1; 2])) = Ok () ↔
  ∀ a b, a ∈ values (index (series_of Int64Index [0; 1; 2])) →
         b ∈ values (index (series_of Int64Index [3; 4])) → a < b.
Proof.
  apply (check_consistent_time_index_train_before
           (series_of Int64Index [3; 4]) [] (series_of Int64Index [0; 1; 2]));
    [reflexivity | reflexivity | by left].
Defined.

(** ** check_X *)

(** The columns after the first, when their cells are raw arrays: each is
    given the range of the size of the first cell, so all of them pass or
    the first of them is named. *)
Lemma compare_columns_after_first
    (cols : list string) (x0 : cell) (arrs : list ndarray) (fi : Index) (n : nat) :
  shape0 x0 = Ok n →
  ∀ (names : list string) (c : nat),
    (1 ≤ c)%nat → (c + length names ≤ S (length arrs))%nat →
    compare_columns (mkDataFrame cols [x0 :: (CArray <$> arrs)]) fi c names =
      match names with
      | [] => Ok ()
      | col :: _ =>
          if array_equal fi (pd_RangeIndex n) then Ok () else Raise (XUnequalIndex col)
      end.
Proof.
  intros Hn names. induction names as [|col names IH]; intros c Hc Hlen; [done|].
  change (length (col :: names)) with (S (length names)) in Hlen.
  destruct c as [|c]; [lia|].
  destruct (lookup_lt_is_Some_2 arrs c) as [a Ha]; [lia|].
  assert (iloc (mkDataFrame cols [x0 :: (CArray <$> arrs)]) 0 (S c) = Ok (CArray a)) as Hcell.
  { rewrite iloc_row. change ((x0 :: (CArray <$> arrs)) !! S c) with ((CArray <$> arrs) !! c).
    by rewrite list_lookup_fmap, Ha. }
  assert (iloc (mkDataFrame cols [x0 :: (CArray <$> arrs)]) 0 0 = Ok x0) as Hfirst by done.
  cbn [compare_columns]. rewrite Hcell, Hfirst.
  cbn [mbind result_bind cell_index]. rewrite Hn. cbn [mbind result_bind].
  destruct (array_equal fi (pd_RangeIndex n)) eqn:Heq; cbn [negb]; [|done].
  rewrite IH by lia. by destruct names.
Qed.

(** X21. In a row of series cells whose indexes are compared exactly with
    the first one, as they are when all have one label dtype, every cell is
    compared by its own index. The table is returned exactly when the first
    index is not empty and every cell has the labels of the first one; when
    a cell has other labels, the error names the column of such a cell. *)
Theorem check_X_series_table (cols : list string) (s0 : Series) (ss : list Series) :
  let X := mkDataFrame cols [CSeries <$> (s0 :: ss)] in
  length cols = S (length ss) →
  Forall (fun s => exact_labels (index s0) (index s)) ss →
  (check_X (XDataFrame X) = Ok X ↔
     values (index s0) ≠ [] ∧
     Forall (fun s => values (index s) = values (index s0)) ss) ∧
  (values (index s0) ≠ [] →
   ¬ Forall (fun s => values (index s) = values (index s0)) ss →
   ∃ j col s, cols !! j = Some col ∧ (s0 :: ss) !! j = Some s ∧
              values (index s) ≠ values (index s0) ∧
              check_X (XDataFrame X) = Raise (XUnequalIndex col)).
Proof.
  intros X Hlen Hex. unfold check_X, X. cbn [rows length Nat.ltb Nat.leb].
  rewrite iloc_row.
  change ((CSeries <$> s0 :: ss) !! 0%nat) with (Some (CSeries s0)).
  cbn [mbind result_bind cell_index columns].
  replace (length (values (index s0)) <=? 0)%nat
    with (bool_decide (values (index s0) = []))
    by (by destruct (values (index s0))).
  case_bool_decide as Hv0.
  { split; [split; [done | by intros [? _]] | done]. }
  assert (∀ s, s ∈ s0 :: ss →
            same_labels (index s0) (index s) ↔ values (index s) = values (index s0))
    as Hsame.
  { intros s Hs. rewrite same_labels_exact; [done|].
    apply elem_of_cons in Hs as [->|Hs]; [by left|].
    rewrite Forall_forall in Hex. by apply Hex. }
  destruct (compare_columns_series cols (s0 :: ss) (index s0) cols 0%nat)
    as [[Hok Hall]|(j & col & s & Hj & Hs & Hdiff & Hr)]; [simpl; lia | |].
  - cbn zeta in Hok. rewrite Hok. cbn [mbind result_bind].
    rewrite drop_0 in Hall. apply Forall_cons in Hall as [_ Hall].
    assert (Forall (fun s => values (index s) = values (index s0)) ss) as Hall'.
    { rewrite Forall_forall in Hall |- *. intros s Hs.
      apply Hsame; [by right | by apply Hall]. }
    split; [split; [done | done] | done].
  - cbn zeta in Hr. rewrite Hr. cbn [mbind result_bind].
    assert (values (index s) ≠ values (index s0)) as Hdiff'.
    { intros Heq. apply Hdiff, Hsame; [|done].
      by apply list_elem_of_lookup_2 in Hs. }
    assert (¬ Forall (fun s => values (index s) = values (index s0)) ss) as Hnot.
    { intros Hall. destruct j as [|j]; simpl in Hs.
      - injection Hs as <-. by apply Hdiff'.
      - rewrite Forall_lookup in Hall. by apply Hdiff', (Hall j). }
    split; [split; [done | by intros [_ ?]]|].
    intros _ _. by exists j, col, s.
Qed.

Lemma check_X_series_table_witness :
  let s0 := series_of Int64Index [0; 1; 2] in
  let s1 := series_of Int64Index [0; 1] in
  ∃ j col s, ["a"; "b"] !! j = Some col ∧ [s0; s1] !! j = Some s ∧
             values (index s) ≠ values (index s0) ∧
             check_X (XDataFrame (mkDataFrame ["a"; "b"] [CSeries <$> [s0; s1]]))
               = Raise (XUnequalIndex col).
Proof.
  apply (check_X_series_table ["a"; "b"]
           (series_of Int64Index [0; 1; 2]) [series_of Int64Index [0; 1]]).
  - reflexivity.
  - repeat constructor.
  - discriminate.
  - intros Hall. apply Forall_cons in Hall as [Heq _]. discriminate Heq.
Defined.

(** X22. In a row of raw arrays only the first cell counts: when its first
    axis is not empty the table is returned, whatever the shapes of the
    arrays in the other columns, which are never looked at. *)
Theorem check_X_raw_cells_not_compared
    (cols : list string) (a0 : ndarray) (arrs : list ndarray) (n : nat) (ds : list nat) :
  let X := mkDataFrame cols [CArray <$> (a0 :: arrs)] in
  shape a0 = S n :: ds →
  length cols = S (length arrs) →
  check_X (XDataFrame X) = Ok X.
Proof.
  intros X Hshape Hlen. unfold check_X, X. cbn [rows length Nat.ltb Nat.leb].
  rewrite iloc_row. rewrite fmap_cons. cbn [lookup list_lookup mbind result_bind cell_index].
  assert (shape0 (CArray a0) = Ok (S n)) as Hn by (cbn [shape0]; by rewrite Hshape).
  rewrite Hn. cbn [mbind result_bind].
  replace (length (values (pd_RangeIndex (S n))) <=? 0)%nat with false
    by (unfold pd_RangeIndex; cbn [values]; by rewrite length_fmap, length_seq).
  cbn [columns]. destruct cols as [|col cols]; [done|].
  cbn [compare_columns]. rewrite !iloc_row. cbn [lookup list_lookup mbind result_bind cell_index].
  rewrite Hn. cbn [mbind result_bind]. unfold array_equal at 1.
  rewrite labels_equal_refl. cbn [negb].
  rewrite (compare_columns_after_first _ _ _ _ _ Hn) by (simpl in *; lia).
  unfold array_equal. rewrite labels_equal_refl. by destruct cols.
Qed.

Lemma check_X_raw_cells_not_compared_witness :
  let X := mkDataFrame ["a"; "b"] [[CArray (Nd1 floating [0; 0; 0]); CArray (Nd0 floating)]] in
  check_X (XDataFrame X) = Ok X.
Proof.
  apply (check_X_raw_cells_not_compared ["a"; "b"]
           (Nd1 floating [0; 0; 0]) [Nd0 floating] 2 []); reflexivity.
Defined.

Lemma range_small (n : nat) :
  Z.of_nat n ≤ 2 ^ 53 → Forall small (values (pd_RangeIndex n)).
Proof.
  intros Hn. apply Forall_forall. intros z. unfold pd_RangeIndex. cbn [values].
  intros (k & -> & Hk%elem_of_seq)%list_elem_of_fmap. unfold small. lia.
Qed.

Lemma labels_equal_small_right (i j : Index) :
  is_numeric (labels_dtype_of (kind i)) = true →
  is_numeric (labels_dtype_of (kind j)) = true →
  Forall small (values j) →
  labels_equal i j = bool_decide (values i = values j).
Proof.
  intros Hi Hj Hsmall. unfold labels_equal, comparison_of. rewrite Hi, Hj. cbn [andb].
  case_decide; [done|].
  apply bool_decide_ext. by apply to_float64_fmap_eq_small.
Qed.

(** X23. When the first cell is a series and the cells after it are raw
    arrays, the arrays are given the range of the length of that series:
    the table is returned when the labels of the series are 0, 1, 2, ...,
    and otherwise the second column is named, whatever array it holds. This
    is so for a series with int64 labels, and for one with other numeric
    labels as long as it has no more than 2^53 observations, so that the
    range is the same in float64. *)
Theorem check_X_series_then_raw
    (col0 col1 : string) (cols : list string) (s0 : Series) (a1 : ndarray) (arrs : list ndarray) :
  let X := mkDataFrame (col0 :: col1 :: cols) [CSeries s0 :: (CArray <$> (a1 :: arrs))] in
  items s0 ≠ [] →
  length cols = length arrs →
  labels_dtype_of (index_kind_of s0) = int64_labels ∨
    (is_numeric (labels_dtype_of (index_kind_of s0)) = true ∧
     Z.of_nat (series_len s0) ≤ 2 ^ 53) →
  check_X (XDataFrame X) =
    if decide (values (index s0) = values (pd_RangeIndex (series_len s0)))
    then Ok X else Raise (XUnequalIndex col1).
Proof.
  intros X Hne Hlen Hdt. unfold check_X, X. cbn [rows length Nat.ltb Nat.leb].
  rewrite iloc_row. cbn [lookup list_lookup mbind result_bind cell_index].
  replace (length (values (index s0)) <=? 0)%nat with false.
  2:{ unfold index. cbn [values]. rewrite length_fmap. by destruct (items s0). }
  assert (array_equal (index s0) (pd_RangeIndex (series_len s0)) =
          bool_decide (values (index s0) = values (pd_RangeIndex (series_len s0))))
    as Hcmp.
  { unfold array_equal. destruct Hdt as [Hint|[Hnum Hbound]].
    - apply labels_equal_exact. by left.
    - apply labels_equal_small_right; [done | done | by apply range_small]. }
  cbn [columns compare_columns]. rewrite !iloc_row.
  cbn [lookup list_lookup mbind result_bind cell_index].
  unfold array_equal at 1. rewrite labels_equal_refl. cbn [negb].
  rewrite (compare_columns_after_first _ (CSeries s0) (a1 :: arrs) _ (series_len s0));
    [| done | lia | cbn [length]; lia].
  rewrite fmap_cons.
  cbn [lookup list_lookup mbind result_bind cell_index shape0].
  rewrite Hcmp. case_decide as Hdense.
  - rewrite !bool_decide_eq_true_2 by done. cbn [negb]. by destruct cols.
  - by rewrite bool_decide_eq_false_2 by done.
Qed.

Lemma check_X_series_then_raw_witness :
  let X := mkDataFrame ["a"; "b"]
             [[CSeries (series_of Int64Index [10; 11]); CArray (Nd1 floating [0; 0])]] in
  check_X (XDataFrame X) = Raise (XUnequalIndex "b").
Proof.
  apply (check_X_series_then_raw "a" "b" [] (series_of Int64Index [10; 11])
           (Nd1 floating [0; 0]) []).
  - discriminate.
  - reflexivity.
  - by left.
Defined.

(** X24. A table without a cell in its first row and first column, such as
    one with no row at all, is not turned away by the test on the number of
    rows, which only refuses more than one: reading the first cell raises an
    [IndexError]. *)
Theorem check_X_no_first_cell (X : DataFrame) :
  (length (rows X) ≤ 1)%nat →
  rows X !! 0%nat ≫= (.!! 0%nat) = None →
  check_X (XDataFrame X) = Raise IndexerOutOfBounds ∧
  exn_of IndexerOutOfBounds = Some IndexError.
Proof.
  intros Hrows Hcell. split; [|done]. unfold check_X.
  replace (1 <? length (rows X))%nat with false by (symmetry; apply Nat.ltb_ge; lia).
  unfold iloc. by rewrite Hcell.
Qed.

Lemma check_X_no_first_cell_witness :
  check_X (XDataFrame (mkDataFrame ["a"] [])) = Raise IndexerOutOfBounds ∧
  exn_of IndexerOutOfBounds = Some IndexError.
Proof.
  apply (check_X_no_first_cell (mkDataFrame ["a"] [])); [simpl; lia | reflexivity].
Defined.

(** ** check_y_X *)

(** On series, the function on indexes is [check_consistent_time_index]. *)
Lemma check_rest_indexes_series (first_index : Index) (ys : list Series) :
  check_rest_indexes first_index (index <$> ys) = check_rest first_index ys.
Proof.
  induction ys as [|y ys IH]; [done|]. rewrite fmap_cons.
  cbn [check_rest_indexes check_rest]. by rewrite IH.
Qed.

Lemma check_consistent_indexes_series (ys : list Series) (y_train : option Series) :
  check_consistent_indexes (index <$> ys) (index <$> y_train) =
  check_consistent_time_index ys y_train.
Proof.
  destruct ys as [|y0 ys]; [done|]. rewrite fmap_cons.
  unfold check_consistent_indexes, check_consistent_time_index.
  rewrite check_rest_indexes_series. by destruct y_train.
Qed.

Lemma check_y_Ok_inv (y : y_arg) (allow_empty allow_constant : bool) (s : Series) :
  check_y y allow_empty allow_constant = Ok s → y = YSeries s.
Proof.
  destruct y as [y | a | v]; try done. unfold check_y.
  destruct (if negb allow_empty then _ else _) as [[]|]; [|done].
  cbn [mbind result_bind].
  destruct (if negb allow_constant then _ else _) as [[]|]; [|done].
  cbn [mbind result_bind].
  destruct (check_time_index _) as [i|]; [|done]. by intros [= <-].
Qed.

Lemma check_X_Ok_one_row (X : X_arg) (D : DataFrame) :
  check_X X = Ok D → X = XDataFrame D ∧ length (rows D) = 1%nat.
Proof.
  destruct X as [X | v]; [|done]. unfold check_X.
  destruct (1 <? length (rows X))%nat eqn:Hrows; [done|].
  apply Nat.ltb_ge in Hrows. unfold iloc.
  destruct (rows X) as [|row rest] eqn:Hr; [done|].
  cbn [lookup list_lookup mbind option_bind].
  destruct (row !! 0%nat) as [x00|]; [|done]. cbn [mbind result_bind].
  destruct (match cell_index x00 with Some i => _ | None => _ end) as [fi|]; [|done].
  cbn [mbind result_bind].
  destruct (length (values fi) <? 1)%nat; [done|].
  destruct (compare_columns _ _ _ _) as [[]|]; [|done]. cbn [mbind result_bind].
  intros [= <-]. split; [done|]. rewrite Hr. simpl in *. lia.
Qed.

(** X25. [check_y_X] compares the index of the series with the row index of
    the table, and the table has one row. So, for a table whose row index
    has a label per row, the call succeeds only for a series of exactly one
    observation, whose label is that of the row as [Index.equals] compares
    the two, which is the same label when the comparison is exact; it
    returns its two arguments. A series of two or more observations is never
    accepted. *)
Theorem check_y_X_single_observation (y : y_arg) (X : frame_arg) (s : Series) (F : Frame) :
  length (values (row_index F)) = length (rows (frame F)) →
  check_y_X y X = Ok (s, F) →
  y = YSeries s ∧ X = FFrame F ∧
  series_len s = 1%nat ∧ same_labels (index s) (row_index F) ∧
  (exact_labels (index s) (row_index F) → values (index s) = values (row_index F)).
Proof.
  intros Hrows. unfold check_y_X.
  destruct (check_y y false true) as [s'|] eqn:Hy; [|done]. cbn [mbind result_bind].
  apply check_y_Ok_inv in Hy as ->.
  destruct (check_X (frame_data X)) as [D|] eqn:HX; [|done]. cbn [mbind result_bind].
  apply check_X_Ok_one_row in HX as [HX Hone].
  destruct X as [F'|v]; [|done]. injection HX as <-.
  unfold check_consistent_indexes. cbn [check_rest_indexes].
  destruct (check_time_index (TIndex (index s'))) as [i|]; [|done].
  cbn [mbind result_bind].
  destruct (check_time_index (TIndex (row_index F'))) as [j|]; [|done].
  cbn [mbind result_bind]. unfold index_equals.
  destruct (labels_equal (index s') (row_index F')) eqn:Heq; [|done].
  cbn [negb mbind result_bind]. apply labels_equal_spec in Heq.
  intros [= <- <-]. split_and!; try done.
  - unfold series_len. rewrite <- Hone, <- Hrows, <- (same_labels_length _ _ Heq).
    unfold index. cbn [values]. by rewrite length_fmap.
  - intros Hex. by apply same_labels_exact.
Qed.

Lemma check_y_X_single_observation_witness :
  let s := series_of RangeIndex [0] in
  let F := mkFrame (mkDataFrame ["a"] [[series_cell [0; 1; 2]]]) (pd_RangeIndex 1) in
  YSeries s = YSeries s ∧ FFrame F = FFrame F ∧
  series_len s = 1%nat ∧ same_labels (index s) (row_index F) ∧
  (exact_labels (index s) (row_index F) → values (index s) = values (row_index F)).
Proof.
  apply (check_y_X_single_observation
           (YSeries (series_of RangeIndex [0]))
           (FFrame (mkFrame (mkDataFrame ["a"] [[series_cell [0; 1; 2]]]) (pd_RangeIndex 1))));
    reflexivity.
Defined.

Lemma check_fh_twice_witness :
  let h' : heap := {[ 0%nat := Nd1 signed_int [1; 2; 3] ]} in
  check_fh (Ref 0%nat) h' = (Ok (Ref 0%nat), h').
Proof.
  apply (check_fh_twice (Val (VList [VInt 3; VInt 1; VInt 2])) ∅).
  vm_compute. reflexivity.
Defined.
